(** * go-snowflake: a configurable Snowflake ID generator

    Shallow embedding of [snowflake.go] and the properties of its
    construction ([New]), accessor ([MachineID]) and hot path ([Next]).

    Go's [uint64] and [int64] values are integers of [Z] with the 64-bit
    wrap-around written out at every arithmetic operation.  The mutex of
    the generator serialises the calls of [Next]; the model is the
    resulting sequential program, which threads the generator through the
    calls.  The wall clock is an input: every call of [Next] receives the
    value that [time.Now().UnixNano()] returned to it. *)

From Stdlib Require Import ZArith Lia List Bool String.
From Stdlib Require Import DecimalString Sorting.Sorted.
Import ListNotations.

Local Open Scope Z_scope.

(** ** 64-bit machine arithmetic *)

Module U64.

Definition modulus : Z := 2 ^ 64.

(** The range of a [uint64]. *)
Definition inrange (z : Z) : Prop := 0 <= z < modulus.

(** Conversion to [uint64]: the value modulo [2^64]. *)
Definition wrap (z : Z) : Z := z mod modulus.

Definition add (a b : Z) : Z := wrap (a + b).
Definition sub (a b : Z) : Z := wrap (a - b).
Definition mul (a b : Z) : Z := wrap (a * b).

(** Go shifts by an unsigned count of any size: a count of 64 or more
    leaves no bit of the operand. *)
Definition shl (x s : Z) : Z := if 64 <=? s then 0 else wrap (Z.shiftl x s).
Definition shr (x s : Z) : Z := if 64 <=? s then 0 else Z.shiftr x s.

End U64.

Module I64.

(** Conversion to [int64]: two's complement on 64 bits. *)
Definition wrap (z : Z) : Z := (z + 2 ^ 63) mod 2 ^ 64 - 2 ^ 63.

(** [x << s] on an [int64]. *)
Definition shl (x s : Z) : Z := if 64 <=? s then 0 else wrap (Z.shiftl x s).

(** [^x] on an [int64]. *)
Definition not (x : Z) : Z := Z.lnot x.

End I64.

(** ** Constants *)

Definition DefaultMachineBits : Z := 10.
Definition DefaultSequenceBits : Z := 12.
Definition MaxBits : Z := 63.

(** ** Data *)

Record Generator : Type := mkGenerator {
  time : Z;              (* current time. *)
  seq : Z;               (* current sequence number. *)
  machineIDShifted : Z;  (* machine ID shifted to the proper position. *)
  epochStartNano : Z;    (* epoch start time in nanoseconds. *)
  machineBits : Z;       (* number of bits for the machine ID. *)
  sequenceBits : Z;      (* number of bits for the sequence number. *)
  timeBits : Z;          (* number of bits for the time. *)
  machineShift : Z;      (* number of bits to shift the machine ID. *)
  timeShift : Z;         (* number of bits to shift the time. *)
  sequenceMask : Z;      (* mask for the sequence number. *)
  timeMask : Z;          (* mask for the time. *)
  nanoSecondsShift : Z   (* number of bits to shift the nanoseconds. *)
}.

Module Config.

Record t : Type := mk {
  MachineID : Z;
  EpochStartUnixSeconds : Z;
  MachineBits : Z;
  SequenceBits : Z;
  TimeBits : Z
}.

(** Every field of a [Config] is a [uint64]. *)
Definition wf (c : t) : Prop :=
  U64.inrange (MachineID c) /\
  U64.inrange (EpochStartUnixSeconds c) /\
  U64.inrange (MachineBits c) /\
  U64.inrange (SequenceBits c) /\
  U64.inrange (TimeBits c).

End Config.

(** ** Errors

    A Go [error] of this package is its message. *)

Definition error : Type := string.

(** [%d] of a [uint64]. *)
Definition fmt_d (z : Z) : string :=
  NilZero.string_of_uint (N.to_uint (Z.to_N z)).

Definition errBitsSum : error :=
  "invalid config: SequenceBits + MachineBits + TimeBits must equal 63"%string.

Definition errMachineID (machineMax : Z) : error :=
  ("invalid machine id; must be 0 ≤ id < " ++ fmt_d machineMax)%string.

(** ** Construction *)

(** [uint64(^(int64(-1) << bits))] *)
Definition maskOf (bits : Z) : Z :=
  U64.wrap (I64.not (I64.shl (-1) bits)).

Definition New (config : Config.t) : Generator + error :=
  let epochStartNano := U64.mul (Config.EpochStartUnixSeconds config) (10 ^ 9) in
  let machineBits := Config.MachineBits config in
  let sequenceBits := Config.SequenceBits config in
  let timeBits := Config.TimeBits config in
  let machineBits :=
    if machineBits =? 0 then DefaultMachineBits else machineBits in
  let sequenceBits :=
    if sequenceBits =? 0 then DefaultSequenceBits else sequenceBits in
  let timeBits :=
    if timeBits =? 0
    then U64.sub (U64.sub MaxBits machineBits) sequenceBits
    else timeBits in
  if negb (U64.add (U64.add sequenceBits machineBits) timeBits =? MaxBits)
  then inr errBitsSum
  else
    let nanoSecondsShift := U64.sub 64 timeBits in
    let machineShift := sequenceBits in
    let timeShift := U64.add sequenceBits machineBits in
    let machineMax := maskOf machineBits in
    if Config.MachineID config >? machineMax
    then inr (errMachineID machineMax)
    else
      inl {| time := 0;
             seq := 0;
             machineIDShifted := U64.shl (Config.MachineID config) machineShift;
             epochStartNano := epochStartNano;
             machineBits := machineBits;
             sequenceBits := sequenceBits;
             timeBits := timeBits;
             machineShift := machineShift;
             timeShift := timeShift;
             sequenceMask := maskOf sequenceBits;
             timeMask := maskOf timeBits;
             nanoSecondsShift := nanoSecondsShift |}.

(** ** Accessor *)

Definition MachineID (g : Generator) : Z :=
  U64.shr (machineIDShifted g) (machineShift g).

(** ** Generation *)

(** [unixNano] is the [int64] that [time.Now().UnixNano()] returns. *)
Definition generateTime (g : Generator) (unixNano : Z) : Z :=
  Z.land
    (U64.shr (U64.sub (U64.wrap unixNano) (epochStartNano g))
             (nanoSecondsShift g))
    (timeMask g).

Definition set_time_seq (g : Generator) (t s : Z) : Generator :=
  {| time := t;
     seq := s;
     machineIDShifted := machineIDShifted g;
     epochStartNano := epochStartNano g;
     machineBits := machineBits g;
     sequenceBits := sequenceBits g;
     timeBits := timeBits g;
     machineShift := machineShift g;
     timeShift := timeShift g;
     sequenceMask := sequenceMask g;
     timeMask := timeMask g;
     nanoSecondsShift := nanoSecondsShift g |}.

(** The composed identifier of the current state. *)
Definition compose (g : Generator) : Z :=
  Z.lor (Z.lor (U64.shl (time g) (timeShift g)) (machineIDShifted g)) (seq g).

(** [Next] under its lock: the state after the call and the value returned. *)
Definition Next (g : Generator) (unixNano : Z) : Generator * Z :=
  let newTime := generateTime g unixNano in
  let g' :=
    if newTime >? time g then
      (* our time is in the future: use it with a zero sequence number. *)
      set_time_seq g newTime 0
    else if seq g =? sequenceMask g then
      (* at the maximum sequence: bump to the next tick. *)
      set_time_seq g (U64.add (time g) 1) 0
    else
      (* otherwise, increment the sequence. *)
      set_time_seq g (time g) (U64.add (seq g) 1)
  in
  (g', compose g').

(** ** Runs *)

(** Successive calls of [Next], one per clock reading: the state after
    each call with the identifier it returned. *)
Fixpoint run (g : Generator) (clock : list Z) : list (Generator * Z) :=
  match clock with
  | [] => []
  | unixNano :: rest =>
      let r := Next g unixNano in r :: run (fst r) rest
  end.

Definition ids (g : Generator) (clock : list Z) : list Z :=
  map snd (run g clock).

Definition states (g : Generator) (clock : list Z) : list Generator :=
  map fst (run g clock).

(** The states a generator goes through. *)
Inductive reachable (g0 : Generator) : Generator -> Prop :=
| reachable_init : reachable g0 g0
| reachable_Next g unixNano :
    reachable g0 g -> reachable g0 (fst (Next g unixNano)).

(** ** Vocabulary of the properties *)

(** What [New] leaves in the generator it returns for [c]. *)
Record built (c : Config.t) (g : Generator) : Prop := mkBuilt {
  built_machineBits :
    machineBits g =
    if Config.MachineBits c =? 0 then DefaultMachineBits else Config.MachineBits c;
  built_sequenceBits :
    sequenceBits g =
    if Config.SequenceBits c =? 0 then DefaultSequenceBits else Config.SequenceBits c;
  built_timeBits :
    timeBits g =
    if Config.TimeBits c =? 0
    then U64.sub (U64.sub MaxBits (machineBits g)) (sequenceBits g)
    else Config.TimeBits c;
  built_sum :
    U64.add (U64.add (sequenceBits g) (machineBits g)) (timeBits g) = MaxBits;
  built_machineID : Config.MachineID c <= maskOf (machineBits g);
  built_machineIDShifted :
    machineIDShifted g = U64.shl (Config.MachineID c) (sequenceBits g);
  built_epochStartNano :
    epochStartNano g = U64.mul (Config.EpochStartUnixSeconds c) (10 ^ 9);
  built_machineShift : machineShift g = sequenceBits g;
  built_timeShift : timeShift g = U64.add (sequenceBits g) (machineBits g);
  built_sequenceMask : sequenceMask g = maskOf (sequenceBits g);
  built_timeMask : timeMask g = maskOf (timeBits g);
  built_nanoSecondsShift : nanoSecondsShift g = U64.sub 64 (timeBits g);
  built_time : time g = 0;
  built_seq : seq g = 0
}.

(** The fields that [New] computes once are those of [g0]. *)
Definition same_layout (g0 g : Generator) : Prop :=
  set_time_seq g 0 0 = set_time_seq g0 0 0.

(** The three bit widths sum to 63 as integers, not only modulo [2^64]. *)
Definition exact_widths (g : Generator) : Prop :=
  machineBits g + sequenceBits g + timeBits g = MaxBits.

(** The machine field of an identifier, by the documented shift and mask. *)
Definition machine_field (g : Generator) (id : Z) : Z :=
  Z.land (U64.shr id (sequenceBits g)) (2 ^ machineBits g - 1).

(** The widths that [New] checks, after the defaults. *)
Definition widthsOf (c : Config.t) : Z * Z * Z :=
  let machineBits :=
    if Config.MachineBits c =? 0 then DefaultMachineBits else Config.MachineBits c in
  let sequenceBits :=
    if Config.SequenceBits c =? 0 then DefaultSequenceBits else Config.SequenceBits c in
  let timeBits :=
    if Config.TimeBits c =? 0
    then U64.sub (U64.sub MaxBits machineBits) sequenceBits
    else Config.TimeBits c in
  (machineBits, sequenceBits, timeBits).

(** The time field of an identifier: what is left after the shift by
    [timeShift]. *)
Definition time_field (g : Generator) (id : Z) : Z :=
  U64.shr id (timeShift g).

(** The place of a state in the order of the identifiers: the stored
    time counted in identifiers per tick, plus the sequence number. *)
Definition position (g : Generator) : Z :=
  time g * 2 ^ sequenceBits g + seq g.

(** The state after a run. *)
Definition final (g : Generator) (clock : list Z) : Generator :=
  fold_left (fun g unixNano => fst (Next g unixNano)) clock g.

(** ** Sample configurations *)

(** A reading of the wall clock: 2023-11-14 22:13:20 UTC in nanoseconds. *)
Definition sampleNano : Z := 1700000000000000000.

(** A configuration with the Unix epoch. *)
Definition cfg (mid mb sb tb : Z) : Config.t :=
  Config.mk mid 0 mb sb tb.

(** Only the machine ID is given: the default layout 41/10/12. *)
Definition defaultLayout (mid : Z) : Generator :=
  {| time := 0; seq := 0;
     machineIDShifted := mid * 4096;
     epochStartNano := 0;
     machineBits := 10; sequenceBits := 12; timeBits := 41;
     machineShift := 12; timeShift := 22;
     sequenceMask := 4095; timeMask := 2199023255551;
     nanoSecondsShift := 23 |}.

(** One bit of time, 61 bits of machine ID, one bit of sequence. *)
Definition narrowTime : Generator :=
  {| time := 0; seq := 0;
     machineIDShifted := 0;
     epochStartNano := 0;
     machineBits := 61; sequenceBits := 1; timeBits := 1;
     machineShift := 1; timeShift := 62;
     sequenceMask := 1; timeMask := 1;
     nanoSecondsShift := 63 |}.

(** Sixty-four bits of time: the widths sum to 63 modulo [2^64] only,
    and the time of a call is the whole elapsed time in nanoseconds. *)
Definition wholeClock : Config.t :=
  Config.mk 0 0 (2 ^ 64 - 2) 1 64.

(** Sixty machine bits next to the twelve default sequence bits: what
    [New] returns for [cfg (2^60 - 1) 60 0 0]. *)
Definition wideMachine : Generator :=
  {| time := 0; seq := 0;
     machineIDShifted := 18446744073709547520;
     epochStartNano := 0;
     machineBits := 60; sequenceBits := 12;
     timeBits := 18446744073709551607;
     machineShift := 12; timeShift := 72;
     sequenceMask := 4095; timeMask := 18446744073709551615;
     nanoSecondsShift := 73 |}.

(** * Facts of the machine arithmetic *)

(** Goals and hypotheses on the range of a [uint64]. *)
Ltac u64_range := unfold U64.inrange, U64.modulus in *; lia.

Lemma pow2_pos (n : Z) : 0 <= n -> 0 < 2 ^ n.
Proof. intros; apply Z.pow_pos_nonneg; lia. Qed.

Lemma pow2_le_mono (a b : Z) : 0 <= a <= b -> 2 ^ a <= 2 ^ b.
Proof. intros; apply Z.pow_le_mono_r; lia. Qed.

Lemma pow2_split (a b : Z) : 0 <= a <= b -> 2 ^ b = 2 ^ (b - a) * 2 ^ a.
Proof.
  intros H. rewrite <- Z.pow_add_r by lia. f_equal. lia.
Qed.

Lemma wrap_inrange (z : Z) : U64.inrange (U64.wrap z).
Proof. unfold U64.inrange, U64.wrap. apply Z.mod_pos_bound. reflexivity. Qed.

Lemma wrap_small (z : Z) : U64.inrange z -> U64.wrap z = z.
Proof. unfold U64.inrange, U64.wrap. intros. apply Z.mod_small. assumption. Qed.

Lemma shl_inrange (x s : Z) : U64.inrange (U64.shl x s).
Proof.
  unfold U64.shl. destruct (64 <=? s).
  - u64_range.
  - apply wrap_inrange.
Qed.

Lemma shr_inrange (x s : Z) : U64.inrange x -> 0 <= s -> U64.inrange (U64.shr x s).
Proof.
  unfold U64.shr, U64.inrange, U64.modulus. intros Hx Hs.
  destruct (64 <=? s); [lia|].
  rewrite Z.shiftr_div_pow2 by assumption.
  pose proof (pow2_pos s Hs). split.
  - apply Z.div_pos; lia.
  - apply Z.div_lt_upper_bound; nia.
Qed.

(** A left shift that loses no bit is a multiplication. *)
Lemma shl_exact (x s : Z) :
  0 <= s < 64 -> 0 <= x -> x * 2 ^ s < 2 ^ 64 -> U64.shl x s = x * 2 ^ s.
Proof.
  intros Hs Hx Hlt. unfold U64.shl.
  destruct (64 <=? s) eqn:E; [apply Z.leb_le in E; lia|].
  rewrite Z.shiftl_mul_pow2 by lia.
  apply wrap_small. unfold U64.inrange, U64.modulus.
  pose proof (pow2_pos s). nia.
Qed.

(** In general it keeps the low [64 - s] bits of its operand. *)
Lemma shl_low (x s : Z) :
  0 <= s < 64 -> U64.shl x s = (x mod 2 ^ (64 - s)) * 2 ^ s.
Proof.
  intros Hs. unfold U64.shl, U64.wrap, U64.modulus.
  destruct (64 <=? s) eqn:E; [apply Z.leb_le in E; lia|].
  rewrite Z.shiftl_mul_pow2 by lia.
  rewrite (pow2_split s 64) by lia.
  pose proof (pow2_pos s). pose proof (pow2_pos (64 - s)).
  rewrite Z.mul_mod_distr_r by lia. reflexivity.
Qed.

Lemma shr_div (x s : Z) : 0 <= s < 64 -> U64.shr x s = x / 2 ^ s.
Proof.
  intros Hs. unfold U64.shr.
  destruct (64 <=? s) eqn:E; [apply Z.leb_le in E; lia|].
  apply Z.shiftr_div_pow2. lia.
Qed.

Lemma land_le_r (a b : Z) : 0 <= b -> Z.land a b <= b.
Proof.
  intros Hb. rewrite Z.land_comm.
  pose proof (Z.sub_land_same_l b a) as E.
  assert (0 <= Z.land b (Z.lnot a)) by (apply Z.land_nonneg; left; assumption).
  lia.
Qed.

Lemma land_shifted_low (a b n : Z) :
  0 <= n -> 0 <= b < 2 ^ n -> Z.land (a * 2 ^ n) b = 0.
Proof.
  intros Hn Hb. apply Z.bits_inj'. intros i Hi.
  rewrite Z.land_spec, Z.bits_0.
  destruct (Z.lt_ge_cases i n) as [Hlt|Hge].
  - rewrite Z.mul_pow2_bits_low by assumption. reflexivity.
  - rewrite <- (Z.mod_small b (2 ^ n)) by assumption.
    rewrite Z.mod_pow2_bits_high by lia. apply andb_false_r.
Qed.

(** Fields in disjoint bit ranges are combined by an addition. *)
Lemma lor_shifted_low (a b n : Z) :
  0 <= n -> 0 <= b < 2 ^ n -> Z.lor (a * 2 ^ n) b = a * 2 ^ n + b.
Proof.
  intros Hn Hb.
  pose proof (Z.add_lor_land (a * 2 ^ n) b) as E.
  rewrite land_shifted_low in E by assumption. lia.
Qed.

(** ** The masks *)

Lemma maskOf_small (bits : Z) : 0 <= bits < 64 -> maskOf bits = 2 ^ bits - 1.
Proof.
  intros Hb. unfold maskOf, I64.not, I64.shl, I64.wrap.
  destruct (64 <=? bits) eqn:E; [apply Z.leb_le in E; lia|].
  rewrite Z.shiftl_mul_pow2 by lia.
  pose proof (pow2_pos bits).
  assert (2 ^ bits <= 2 ^ 63) by (apply pow2_le_mono; lia).
  replace (-1 * 2 ^ bits + 2 ^ 63) with (2 ^ 63 - 2 ^ bits) by lia.
  rewrite (Z.mod_small (2 ^ 63 - 2 ^ bits)) by lia.
  replace (2 ^ 63 - 2 ^ bits - 2 ^ 63) with (- 2 ^ bits) by lia.
  rewrite Z.lnot_opp. apply wrap_small.
  u64_range.
Qed.

Lemma maskOf_large (bits : Z) : 64 <= bits -> maskOf bits = 2 ^ 64 - 1.
Proof.
  intros Hb. unfold maskOf, I64.not, I64.shl.
  destruct (64 <=? bits) eqn:E; [|apply Z.leb_gt in E; lia].
  reflexivity.
Qed.

Lemma maskOf_inrange (bits : Z) : 0 <= bits -> U64.inrange (maskOf bits).
Proof. intros. apply wrap_inrange. Qed.

(** The mask of the code is the unsigned formula [(1 << bits) - 1]. *)
Lemma maskOf_unsigned (bits : Z) :
  0 <= bits -> maskOf bits = U64.sub (U64.shl 1 bits) 1.
Proof.
  intros Hb. destruct (Z.lt_ge_cases bits 64) as [Hlt|Hge].
  - rewrite maskOf_small by lia.
    assert (2 ^ bits <= 2 ^ 63) by (apply pow2_le_mono; lia).
    pose proof (pow2_pos bits Hb).
    rewrite shl_exact by lia.
    unfold U64.sub. rewrite wrap_small; [lia|].
    u64_range.
  - rewrite maskOf_large by assumption.
    unfold U64.shl. destruct (64 <=? bits) eqn:E; [|apply Z.leb_gt in E; lia].
    reflexivity.
Qed.

(** Every bit width has fewer values than its mask allows for, whatever
    the width: [maskOf bits < 2 ^ bits]. *)
Lemma maskOf_lt_pow2 (bits : Z) : 0 <= bits -> maskOf bits < 2 ^ bits.
Proof.
  intros Hb. destruct (Z.lt_ge_cases bits 64) as [Hlt|Hge].
  - rewrite maskOf_small by lia. lia.
  - rewrite maskOf_large by assumption.
    assert (2 ^ 64 <= 2 ^ bits) by (apply pow2_le_mono; lia). lia.
Qed.

(** * Construction *)

Lemma New_built (c : Config.t) (g : Generator) : New c = inl g -> built c g.
Proof.
  unfold New. intros H.
  destruct (negb _) eqn:Esum in H; [discriminate|].
  destruct (_ >? _) eqn:Emid in H; [discriminate|].
  apply negb_false_iff, Z.eqb_eq in Esum.
  assert (Hmid := Zgt_cases (Config.MachineID c)
                    (maskOf (if Config.MachineBits c =? 0
                             then DefaultMachineBits else Config.MachineBits c))).
  rewrite Emid in Hmid.
  injection H as <-. constructor; simpl; try reflexivity; assumption.
Qed.

(** The widths of a constructed generator are [uint64] values, and the
    defaults leave no machine or sequence width at zero. *)
Lemma built_widths (c : Config.t) (g : Generator) :
  Config.wf c -> built c g ->
  1 <= machineBits g < U64.modulus /\
  1 <= sequenceBits g < U64.modulus /\
  0 <= timeBits g < U64.modulus.
Proof.
  intros (_ & _ & Hmb & Hsb & Htb) B. unfold U64.inrange in *.
  rewrite (built_timeBits c g B).
  rewrite (built_machineBits c g B), (built_sequenceBits c g B).
  unfold DefaultMachineBits, DefaultSequenceBits, U64.modulus in *.
  repeat split;
    repeat match goal with
           | |- context [?a =? 0] => destruct (Z.eqb_spec a 0)
           end;
    try lia;
    apply wrap_inrange.
Qed.

(** With widths that sum exactly, nothing in the layout wraps around. *)
Lemma built_exact (c : Config.t) (g : Generator) :
  Config.wf c -> built c g -> exact_widths g ->
  1 <= machineBits g /\ 1 <= sequenceBits g /\ 0 <= timeBits g /\
  machineShift g = sequenceBits g /\
  timeShift g = sequenceBits g + machineBits g /\
  sequenceMask g = 2 ^ sequenceBits g - 1 /\
  timeMask g = 2 ^ timeBits g - 1 /\
  nanoSecondsShift g = 64 - timeBits g /\
  0 <= Config.MachineID c < 2 ^ machineBits g /\
  machineIDShifted g = Config.MachineID c * 2 ^ sequenceBits g.
Proof.
  intros W B E. destruct (built_widths c g W B) as (Hmb & Hsb & Htb).
  unfold exact_widths, MaxBits in E.
  destruct W as (Hmid & _). unfold U64.inrange in Hmid.
  pose proof (built_machineID c g B) as Hmax.
  rewrite maskOf_small in Hmax by lia.
  rewrite (built_machineShift c g B), (built_timeShift c g B),
    (built_sequenceMask c g B), (built_timeMask c g B),
    (built_nanoSecondsShift c g B), (built_machineIDShifted c g B).
  rewrite !maskOf_small by lia.
  unfold U64.add, U64.sub. rewrite !wrap_small
    by u64_range.
  repeat split; try lia.
  apply shl_exact; try lia.
  assert (2 ^ (machineBits g + sequenceBits g) <= 2 ^ 63)
    by (apply pow2_le_mono; lia).
  rewrite Z.pow_add_r in * by lia.
  pose proof (pow2_pos (sequenceBits g)). nia.
Qed.

(** * Generation *)

Lemma same_layout_refl (g : Generator) : same_layout g g.
Proof. reflexivity. Qed.

Lemma same_layout_trans (g0 g1 g2 : Generator) :
  same_layout g0 g1 -> same_layout g1 g2 -> same_layout g0 g2.
Proof. unfold same_layout. congruence. Qed.

Lemma same_layout_set (g : Generator) (t s : Z) :
  same_layout g (set_time_seq g t s).
Proof. reflexivity. Qed.

Lemma same_layout_fields (g0 g : Generator) :
  same_layout g0 g ->
  machineIDShifted g = machineIDShifted g0 /\
  epochStartNano g = epochStartNano g0 /\
  machineBits g = machineBits g0 /\
  sequenceBits g = sequenceBits g0 /\
  timeBits g = timeBits g0 /\
  machineShift g = machineShift g0 /\
  timeShift g = timeShift g0 /\
  sequenceMask g = sequenceMask g0 /\
  timeMask g = timeMask g0 /\
  nanoSecondsShift g = nanoSecondsShift g0.
Proof.
  unfold same_layout. intros H.
  repeat split;
    match goal with
    | |- ?f g = _ => exact (f_equal f H)
    end.
Qed.

(** The three branches of [Next]. *)
Lemma Next_cases (g : Generator) (unixNano : Z) :
  let newTime := generateTime g unixNano in
  let g' := fst (Next g unixNano) in
  (newTime > time g /\ g' = set_time_seq g newTime 0) \/
  (newTime <= time g /\ seq g = sequenceMask g /\
   g' = set_time_seq g (U64.add (time g) 1) 0) \/
  (newTime <= time g /\ seq g <> sequenceMask g /\
   g' = set_time_seq g (time g) (U64.add (seq g) 1)).
Proof.
  unfold Next. simpl.
  pose proof (Zgt_cases (generateTime g unixNano) (time g)) as Hgt.
  destruct (generateTime g unixNano >? time g).
  - left. split; [assumption | reflexivity].
  - right. destruct (Z.eqb_spec (seq g) (sequenceMask g)).
    + left. repeat split; assumption || reflexivity.
    + right. repeat split; assumption || reflexivity.
Qed.

Lemma Next_compose (g : Generator) (unixNano : Z) :
  snd (Next g unixNano) = compose (fst (Next g unixNano)).
Proof. reflexivity. Qed.

Lemma Next_same_layout (g : Generator) (unixNano : Z) :
  same_layout g (fst (Next g unixNano)).
Proof.
  destruct (Next_cases g unixNano) as [(_ & ->) | [(_ & _ & ->) | (_ & _ & ->)]];
    apply same_layout_set.
Qed.

Lemma generateTime_bounds (g : Generator) (unixNano : Z) :
  0 <= timeMask g -> 0 <= generateTime g unixNano <= timeMask g.
Proof.
  intros H. unfold generateTime. split.
  - apply Z.land_nonneg. right. assumption.
  - apply land_le_r. assumption.
Qed.

(** ** Runs *)

Lemma ids_cons (g : Generator) (unixNano : Z) (rest : list Z) :
  ids g (unixNano :: rest) =
  snd (Next g unixNano) :: ids (fst (Next g unixNano)) rest.
Proof. reflexivity. Qed.

Lemma states_cons (g : Generator) (unixNano : Z) (rest : list Z) :
  states g (unixNano :: rest) =
  fst (Next g unixNano) :: states (fst (Next g unixNano)) rest.
Proof. reflexivity. Qed.

Lemma states_reachable (clock : list Z) :
  forall g0 g : Generator,
    reachable g0 g -> Forall (reachable g0) (states g clock).
Proof.
  induction clock as [|unixNano rest IH]; intros g0 g R.
  - constructor.
  - rewrite states_cons.
    assert (R' := reachable_Next g0 g unixNano R).
    constructor; [assumption | apply IH; assumption].
Qed.

(** ** The states of a constructed generator *)

Lemma reachable_trans (g0 g1 g2 : Generator) :
  reachable g0 g1 -> reachable g1 g2 -> reachable g0 g2.
Proof.
  intros H1 H2. induction H2.
  - assumption.
  - apply reachable_Next. assumption.
Qed.

Lemma reachable_same_layout (g0 g : Generator) :
  reachable g0 g -> same_layout g0 g.
Proof.
  induction 1.
  - apply same_layout_refl.
  - eapply same_layout_trans; [eassumption | apply Next_same_layout].
Qed.

(** The invariant of the mutable state: both counters are [uint64]
    values and the sequence number never passes its mask. *)
Lemma reachable_state (c : Config.t) (g0 g : Generator) :
  Config.wf c -> built c g0 -> reachable g0 g ->
  U64.inrange (time g) /\ 0 <= seq g <= sequenceMask g0.
Proof.
  intros W B R.
  destruct (built_widths c g0 W B) as (Hmb & Hsb & Htb).
  assert (Hsm : U64.inrange (sequenceMask g0))
    by (rewrite (built_sequenceMask c g0 B); apply maskOf_inrange; lia).
  assert (Htm : U64.inrange (timeMask g0))
    by (rewrite (built_timeMask c g0 B); apply maskOf_inrange; lia).
  unfold U64.inrange in Hsm, Htm.
  induction R as [|g unixNano R IH].
  - rewrite (built_time c g0 B), (built_seq c g0 B).
    unfold U64.inrange, U64.modulus in *. lia.
  - destruct IH as (Ht & Hs).
    destruct (same_layout_fields g0 g (reachable_same_layout g0 g R))
      as (_ & _ & _ & _ & _ & _ & _ & Esm & Etm & _).
    pose proof (generateTime_bounds g unixNano) as Hnt.
    rewrite Etm in Hnt. specialize (Hnt (proj1 Htm)).
    destruct (Next_cases g unixNano)
      as [(_ & ->) | [(_ & _ & ->) | (_ & Hne & ->)]]; simpl.
    + unfold U64.inrange in *. lia.
    + split; [apply wrap_inrange | lia].
    + split; [assumption|].
      rewrite Esm in Hne. unfold U64.add.
      rewrite wrap_small by (unfold U64.inrange in *; lia). lia.
Qed.

(** * Generators whose widths sum to 63 exactly *)

Section ExactLayout.

Variable c : Config.t.
Variable g0 : Generator.
Hypothesis W : Config.wf c.
Hypothesis B : built c g0.
Hypothesis E : exact_widths g0.

Local Abbreviation mid := (Config.MachineID c).
Local Abbreviation sb := (sequenceBits g0).
Local Abbreviation mb := (machineBits g0).
Local Abbreviation tb := (timeBits g0).

Lemma exact_powers :
  2 <= 2 ^ sb /\ 2 <= 2 ^ mb /\ 1 <= 2 ^ tb /\
  2 ^ (sb + mb) = 2 ^ mb * 2 ^ sb /\
  2 ^ (tb + 1) = 2 * 2 ^ tb /\
  2 ^ tb * (2 ^ mb * 2 ^ sb) = 2 ^ 63 /\
  0 <= sb + mb < 64 /\ 64 - (sb + mb) = tb + 1 /\
  0 <= mid < 2 ^ mb /\
  1 <= sb /\ 1 <= mb /\ 0 <= tb.
Proof.
  destruct (built_exact c g0 W B E)
    as (Hmb & Hsb & Htb & _ & _ & _ & _ & _ & Hmid & _).
  unfold exact_widths, MaxBits in E.
  pose proof (pow2_le_mono 1 (sequenceBits g0)).
  pose proof (pow2_le_mono 1 (machineBits g0)).
  pose proof (pow2_pos (timeBits g0)).
  change (2 ^ 1) with 2 in *.
  repeat split; try lia.
  - rewrite Z.pow_add_r by lia. lia.
  - rewrite Z.pow_add_r by lia. lia.
  - rewrite <- !Z.pow_add_r by lia. f_equal. lia.
Qed.

(** The identifier of a state, field by field: the machine ID and the
    sequence number are whole, the time is cut to its low
    [timeBits + 1] bits by the 64-bit shift. *)
Lemma compose_fields (g : Generator) :
  reachable g0 g ->
  compose g =
  (time g mod 2 ^ (tb + 1)) * 2 ^ (sb + mb) + mid * 2 ^ sb + seq g.
Proof.
  intros R.
  destruct (built_exact c g0 W B E)
    as (_ & _ & _ & _ & Ets & Esm & _ & _ & _ & Emids).
  destruct (same_layout_fields g0 g (reachable_same_layout g0 g R))
    as (Hmids & _ & _ & _ & _ & _ & Hts & _).
  destruct (reachable_state c g0 g W B R) as (_ & Hseq).
  destruct exact_powers
    as (Psb & Pmb & Ptb & Pts & _ & _ & Rts & Rsub & Rmid & Rsb & _).
  unfold compose. rewrite Hmids, Hts, Emids, Ets.
  rewrite shl_low by assumption. rewrite Rsub.
  set (T := time g mod 2 ^ (tb + 1)).
  rewrite lor_shifted_low by (rewrite ?Pts; nia).
  replace (T * 2 ^ (sb + mb) + mid * 2 ^ sb)
    with ((T * 2 ^ mb + mid) * 2 ^ sb) by (rewrite Pts; ring).
  rewrite lor_shifted_low by lia.
  reflexivity.
Qed.

(** One call moves the identifier strictly upwards as long as the time
    fits the [timeBits + 1] bits that the shift keeps. *)
Lemma Next_increases (g : Generator) (unixNano : Z) :
  reachable g0 g ->
  time g < 2 ^ (tb + 1) ->
  time (fst (Next g unixNano)) < 2 ^ (tb + 1) ->
  compose g < snd (Next g unixNano).
Proof.
  intros R Ht Ht'.
  assert (R' := reachable_Next g0 g unixNano R).
  rewrite Next_compose, (compose_fields g R), (compose_fields _ R').
  destruct (built_exact c g0 W B E) as (_ & _ & _ & _ & _ & Esm & _).
  destruct (reachable_state c g0 g W B R) as ((Ht0 & _) & Hseq).
  destruct (reachable_state c g0 _ W B R') as ((Ht0' & _) & Hseq').
  destruct exact_powers as (Psb & Pmb & Ptb & Pts & Ptop & P63 & _).
  rewrite !Z.mod_small by lia. rewrite Pts.
  assert (Hwrap : U64.add (time g) 1 = time g + 1).
  { apply wrap_small. unfold U64.inrange, U64.modulus. nia. }
  revert Ht' Ht0' Hseq'.
  destruct (Next_cases g unixNano)
    as [(Hgt & ->) | [(_ & _ & ->) | (_ & Hne & ->)]]; simpl; intros.
  - nia.
  - rewrite Hwrap. nia.
  - destruct (same_layout_fields g0 g (reachable_same_layout g0 g R))
      as (_ & _ & _ & _ & _ & _ & _ & Hsm & _).
    rewrite Hsm in Hne. unfold U64.add.
    rewrite wrap_small by (unfold U64.inrange, U64.modulus; nia). lia.
Qed.

Lemma ids_sorted_from (clock : list Z) :
  forall g : Generator,
    reachable g0 g ->
    time g < 2 ^ (tb + 1) ->
    Forall (fun g' => time g' < 2 ^ (tb + 1)) (states g clock) ->
    StronglySorted Z.lt (ids g clock) /\
    Forall (fun id => compose g < id) (ids g clock).
Proof.
  induction clock as [|unixNano rest IH]; intros g R Ht Hall.
  - split; constructor.
  - rewrite states_cons in Hall. rewrite ids_cons.
    inversion Hall as [|? ? Ht' Hrest]; subst.
    assert (R' := reachable_Next g0 g unixNano R).
    destruct (IH _ R' Ht' Hrest) as (Hsorted & Habove).
    pose proof (Next_increases g unixNano R Ht Ht') as Hstep.
    split.
    + constructor; [assumption|].
      rewrite Next_compose. assumption.
    + constructor; [assumption|].
      rewrite Next_compose in Hstep.
      eapply Forall_impl; [|exact Habove].
      cbv beta. intros id Hid. lia.
Qed.

(** While the time fits its field the identifier fits 63 bits. *)
Lemma compose_below_top (g : Generator) :
  reachable g0 g -> time g <= timeMask g0 -> 0 <= compose g < 2 ^ 63.
Proof.
  intros R Ht. rewrite (compose_fields g R).
  destruct (built_exact c g0 W B E) as (_ & _ & _ & _ & _ & Esm & Etm & _).
  destruct (reachable_state c g0 g W B R) as ((Ht0 & _) & Hseq).
  destruct exact_powers
    as (Psb & Pmb & Ptb & Pts & Ptop & P63 & _ & _ & Rmid & _).
  rewrite Z.mod_small by lia. rewrite Pts. nia.
Qed.

(** The machine field of every identifier is the configured machine ID,
    also once the time has outgrown its field. *)
Lemma compose_machine_field (g : Generator) :
  reachable g0 g -> machine_field g0 (compose g) = mid.
Proof.
  intros R. rewrite (compose_fields g R).
  destruct (reachable_state c g0 g W B R) as (_ & Hseq).
  destruct (built_exact c g0 W B E) as (_ & _ & _ & _ & _ & Esm & _).
  destruct exact_powers
    as (Psb & Pmb & Ptb & Pts & _ & _ & Rts & _ & Rmid & Rsb & Rmb & Rtb).
  unfold machine_field.
  set (T := time g mod 2 ^ (tb + 1)).
  rewrite shr_div by lia.
  replace (T * 2 ^ (sb + mb) + mid * 2 ^ sb + seq g)
    with ((T * 2 ^ mb + mid) * 2 ^ sb + seq g) by (rewrite Pts; ring).
  rewrite Z.div_add_l by lia.
  rewrite (Z.div_small (seq g)) by lia.
  replace (2 ^ mb - 1) with (Z.ones mb) by (rewrite Z.ones_equiv; lia).
  rewrite Z.add_0_r, Z.land_ones by lia.
  rewrite Z.add_comm, Z.mod_add by lia.
  apply Z.mod_small. assumption.
Qed.

(** The sequence field of every identifier is the sequence number. *)
Lemma compose_sequence_field (g : Generator) :
  reachable g0 g -> Z.land (compose g) (sequenceMask g0) = seq g.
Proof.
  intros R. rewrite (compose_fields g R).
  destruct (reachable_state c g0 g W B R) as (_ & Hseq).
  destruct (built_exact c g0 W B E) as (_ & _ & _ & _ & _ & Esm & _).
  destruct exact_powers
    as (Psb & Pmb & Ptb & Pts & _ & _ & Rts & _ & Rmid & Rsb & Rmb & Rtb).
  rewrite Esm in *.
  replace (2 ^ sb - 1) with (Z.ones sb) by (rewrite Z.ones_equiv; lia).
  rewrite Z.land_ones by lia.
  replace (time g mod 2 ^ (tb + 1) * 2 ^ (sb + mb) + mid * 2 ^ sb + seq g)
    with (seq g + (time g mod 2 ^ (tb + 1) * 2 ^ mb + mid) * 2 ^ sb)
    by (rewrite Pts; ring).
  rewrite Z.mod_add by lia.
  apply Z.mod_small. lia.
Qed.

(** The accessor undoes the shift of [New]. *)
Lemma MachineID_exact (g : Generator) :
  reachable g0 g -> MachineID g = mid.
Proof.
  intros R.
  destruct (same_layout_fields g0 g (reachable_same_layout g0 g R))
    as (Hmids & _ & _ & _ & _ & Hms & _).
  destruct (built_exact c g0 W B E)
    as (_ & _ & _ & Ems & _ & _ & _ & _ & _ & Emids).
  destruct exact_powers
    as (Psb & _ & _ & _ & _ & _ & _ & _ & _ & Rsb & Rmb & Rtb).
  unfold exact_widths, MaxBits in E.
  unfold MachineID. rewrite Hmids, Hms, Emids, Ems.
  rewrite shr_div by lia.
  apply Z.div_mul. lia.
Qed.

End ExactLayout.

Lemma final_reachable (clock : list Z) :
  forall g0 g : Generator, reachable g0 g -> reachable g0 (final g clock).
Proof.
  induction clock as [|unixNano rest IH]; intros g0 g R.
  - assumption.
  - apply IH. apply reachable_Next. assumption.
Qed.

Lemma testbit_above (x n i : Z) :
  0 <= x < 2 ^ n -> 0 <= n <= i -> Z.testbit x i = false.
Proof.
  intros Hx Hi. apply Z.testbit_false; [lia|].
  assert (2 ^ n <= 2 ^ i) by (apply pow2_le_mono; lia).
  rewrite Z.div_small by lia. reflexivity.
Qed.

Lemma errMachineID_not_errBitsSum (machineMax : Z) :
  errMachineID machineMax <> errBitsSum.
Proof. unfold errMachineID, errBitsSum. simpl. congruence. Qed.

(** * What [New] accepts *)

(** [New] reports the sum of the widths exactly when it differs from 63
    modulo [2^64]. *)
Lemma New_sum_check (c : Config.t) :
  let '(mb, sb, tb) := widthsOf c in
  New c = inr errBitsSum <-> U64.add (U64.add sb mb) tb <> MaxBits.
Proof.
  unfold widthsOf, New.
  destruct (Z.eqb_spec (U64.add
    (U64.add (if Config.SequenceBits c =? 0 then DefaultSequenceBits
              else Config.SequenceBits c)
             (if Config.MachineBits c =? 0 then DefaultMachineBits
              else Config.MachineBits c))
    (if Config.TimeBits c =? 0
     then U64.sub (U64.sub MaxBits
            (if Config.MachineBits c =? 0 then DefaultMachineBits
             else Config.MachineBits c))
            (if Config.SequenceBits c =? 0 then DefaultSequenceBits
             else Config.SequenceBits c)
     else Config.TimeBits c)) MaxBits) as [Heq|Hne]; cbn [negb].
  - split; [|tauto].
    destruct (_ >? _); intros H; [|discriminate].
    exfalso. apply (errMachineID_not_errBitsSum _ (f_equal
      (fun r : Generator + error =>
         match r with inl _ => errBitsSum | inr e => e end) H)).
  - tauto.
Qed.

(** With no time width given the check is void: the default makes the
    sum 63 modulo [2^64] whatever the other two widths are. *)
Lemma New_default_timeBits_sum (c : Config.t) :
  Config.TimeBits c = 0 -> New c <> inr errBitsSum.
Proof.
  intros Htb H. pose proof (New_sum_check c) as Hchk.
  unfold widthsOf in Hchk. rewrite Htb in Hchk. cbn [Z.eqb] in Hchk.
  apply Hchk in H. apply H. clear.
  set (mb := if Config.MachineBits c =? 0 then DefaultMachineBits
             else Config.MachineBits c).
  set (sb := if Config.SequenceBits c =? 0 then DefaultSequenceBits
             else Config.SequenceBits c).
  unfold U64.add, U64.sub, U64.wrap.
  rewrite Z.add_mod_idemp_l, Z.add_mod_idemp_r by (unfold U64.modulus; lia).
  replace (sb + mb + ((MaxBits - mb) mod U64.modulus - sb))
    with ((MaxBits - mb) mod U64.modulus + mb) by ring.
  rewrite Z.add_mod_idemp_l by (unfold U64.modulus; lia).
  replace (MaxBits - mb + mb) with MaxBits by ring.
  reflexivity.
Qed.

(** Once the widths pass, [New] succeeds exactly for the machine IDs up to
    [2^machineBits - 1], and its error carries that maximum. *)
Lemma New_machineID_check (c : Config.t) :
  Config.wf c ->
  New c <> inr errBitsSum ->
  let '(mb, _, _) := widthsOf c in
  (Config.MachineID c <= 2 ^ mb - 1 -> exists g, New c = inl g) /\
  (Config.MachineID c > 2 ^ mb - 1 ->
   New c = inr (errMachineID (2 ^ mb - 1))).
Proof.
  intros (Hmid & _ & Hmb & _) Hsum. unfold U64.inrange, U64.modulus in *.
  unfold widthsOf. revert Hsum. unfold New.
  set (mb := if Config.MachineBits c =? 0 then DefaultMachineBits
             else Config.MachineBits c).
  assert (Hmb1 : 1 <= mb).
  { subst mb. unfold DefaultMachineBits.
    destruct (Z.eqb_spec (Config.MachineBits c) 0); lia. }
  destruct (negb _); [congruence|]. intros _.
  pose proof (Zgt_cases (Config.MachineID c) (maskOf mb)) as Hcmp.
  destruct (Z.lt_ge_cases mb 64) as [Hlt|Hge].
  - rewrite maskOf_small in * by lia.
    destruct (_ >? _); split; intros; try lia; eauto.
  - rewrite maskOf_large in * by lia.
    assert (2 ^ 64 <= 2 ^ mb) by (apply pow2_le_mono; lia).
    destruct (_ >? _); split; intros; try lia; eauto.
Qed.

(** * Sample generators *)

Lemma cfg_wf (mid mb sb tb : Z) :
  U64.inrange mid -> U64.inrange mb -> U64.inrange sb -> U64.inrange tb ->
  Config.wf (cfg mid mb sb tb).
Proof.
  unfold Config.wf, U64.inrange, U64.modulus. simpl. lia.
Qed.

Lemma New_default_1 : New (cfg 1 0 0 0) = inl (defaultLayout 1).
Proof. reflexivity. Qed.

Lemma New_narrowTime : New (cfg 0 61 1 1) = inl narrowTime.
Proof. reflexivity. Qed.

Lemma New_wideMachine : New (cfg (2 ^ 60 - 1) 60 0 0) = inl wideMachine.
Proof. reflexivity. Qed.

(** * Monotonicity *)

(** With one bit of time and one bit of sequence a tick lasts [2^63]
    nanoseconds, so that the time of every reading of a real clock is 0
    and every second call forces the stored time forward: the fourth
    identifier has bit 63 set and the eighth falls back to zero. *)
Example narrowTime_ids :
  ids narrowTime (repeat sampleNano 8) =
  [1; 2 ^ 62; 2 ^ 62 + 1; 2 ^ 63; 2 ^ 63 + 1; 3 * 2 ^ 62; 3 * 2 ^ 62 + 1; 0].
Proof. reflexivity. Qed.

(** Claim C1 as stated fails: the generator that [New] returns for the
    widths 61/1/1 (they sum to 63) returns 0 from its eighth call after
    seven larger identifiers. *)
Lemma ids_fall_after_time_overflow :
  Config.wf (cfg 0 61 1 1) /\
  New (cfg 0 61 1 1) = inl narrowTime /\
  exact_widths narrowTime /\
  ~ StronglySorted Z.lt (ids narrowTime (repeat sampleNano 8)).
Proof.
  split; [|split; [|split]].
  - apply cfg_wf; u64_range.
  - reflexivity.
  - reflexivity.
  - rewrite narrowTime_ids. intros H.
    apply StronglySorted_inv in H as (_ & H).
    rewrite Forall_forall in H.
    assert (1 < 0) by (apply H; simpl; tauto). lia.
Qed.

(** Claim C1, amended: for a generator constructed from widths that sum
    to 63 as integers, and successive calls of [Next] under arbitrary
    clock readings, the identifiers are strictly increasing (each one
    greater than all the earlier ones) as long as the stored time stays
    below [2^(timeBits+1)], the part of it that the 64-bit shift keeps. *)
Theorem ids_strictly_increasing (c : Config.t) (g0 : Generator) (clock : list Z) :
  Config.wf c ->
  New c = inl g0 ->
  exact_widths g0 ->
  Forall (fun g => time g < 2 ^ (timeBits g0 + 1)) (states g0 clock) ->
  StronglySorted Z.lt (ids g0 clock).
Proof.
  intros W HN E Hall.
  pose proof (New_built c g0 HN) as B.
  apply (ids_sorted_from c g0 W B E clock g0).
  - apply reachable_init.
  - rewrite (built_time c g0 B).
    destruct (exact_powers c g0 W B E) as (_ & _ & Htb & _ & Htop & _). lia.
  - assumption.
Qed.

(** The default layout under a clock that advances, stands still and then
    runs backwards by a hundred million seconds. *)
Lemma ids_strictly_increasing_witness :
  StronglySorted Z.lt
    (ids (defaultLayout 1)
         [sampleNano; sampleNano; sampleNano - 10 ^ 17]).
Proof.
  apply (ids_strictly_increasing (cfg 1 0 0 0)).
  - apply cfg_wf; u64_range.
  - reflexivity.
  - reflexivity.
  - repeat constructor.
Defined.

(** * The unused top bit *)

(** Claim C3 as stated fails: for the widths 61/1/1 and a clock that
    stays within one tick, the fourth call of [Next] returns [2^63]. *)
Lemma top_bit_set_after_forced_advance :
  Config.wf (cfg 0 61 1 1) /\
  New (cfg 0 61 1 1) = inl narrowTime /\
  exact_widths narrowTime /\
  reachable narrowTime (final narrowTime (repeat sampleNano 3)) /\
  snd (Next (final narrowTime (repeat sampleNano 3)) sampleNano) = 2 ^ 63 /\
  Z.testbit (snd (Next (final narrowTime (repeat sampleNano 3)) sampleNano)) 63
    = true.
Proof.
  split; [|split; [|split; [|split; [|split]]]].
  - apply cfg_wf; u64_range.
  - reflexivity.
  - reflexivity.
  - apply final_reachable, reachable_init.
  - reflexivity.
  - reflexivity.
Qed.

(** Claim C3, amended: for a generator constructed from widths that sum
    to 63 as integers, every call of [Next] from a reachable state that
    leaves the stored time within its field ([time <= timeMask], the
    time has not been forced past [2^timeBits - 1]) returns an
    identifier below [2^63]: bit 63 is 0. *)
Theorem id_top_bit_clear
  (c : Config.t) (g0 g : Generator) (unixNano : Z) :
  Config.wf c ->
  New c = inl g0 ->
  exact_widths g0 ->
  reachable g0 g ->
  time (fst (Next g unixNano)) <= timeMask g0 ->
  0 <= snd (Next g unixNano) < 2 ^ 63 /\
  Z.testbit (snd (Next g unixNano)) 63 = false.
Proof.
  intros W HN E R Ht.
  pose proof (New_built c g0 HN) as B.
  assert (Hid : 0 <= snd (Next g unixNano) < 2 ^ 63).
  { rewrite Next_compose.
    apply (compose_below_top c g0 W B E); [|assumption].
    apply reachable_Next. assumption. }
  split; [assumption|].
  apply (testbit_above _ 63); lia.
Qed.

Lemma id_top_bit_clear_witness :
  0 <= snd (Next (defaultLayout 1) sampleNano) < 2 ^ 63 /\
  Z.testbit (snd (Next (defaultLayout 1) sampleNano)) 63 = false.
Proof.
  apply (id_top_bit_clear (cfg 1 0 0 0) (defaultLayout 1)).
  - apply cfg_wf; u64_range.
  - reflexivity.
  - reflexivity.
  - apply reachable_init.
  - vm_compute. discriminate.
Defined.

(** * The sum of the widths *)

(** Claim C2 fails on the code: the widths 40/40 with no time width sum
    to 63 only modulo [2^64] (the default time width wraps around to
    [2^64 - 17]), and so do the explicit widths [2^63]/[2^63]/63; [New]
    returns a generator for both. *)
Theorem New_accepts_wrapped_sum :
  Config.wf (cfg 0 40 40 0) /\
  (exists g, New (cfg 0 40 40 0) = inl g /\
             timeBits g = 2 ^ 64 - 17 /\
             machineBits g + sequenceBits g + timeBits g <> MaxBits) /\
  Config.wf (cfg 0 (2 ^ 63) (2 ^ 63) 63) /\
  (exists g, New (cfg 0 (2 ^ 63) (2 ^ 63) 63) = inl g /\
             machineBits g + sequenceBits g + timeBits g = 2 ^ 64 + 63).
Proof.
  split; [|split; [|split]].
  - apply cfg_wf; u64_range.
  - eexists. split; [reflexivity|]. split; [reflexivity|]. discriminate.
  - apply cfg_wf; u64_range.
  - eexists. split; reflexivity.
Qed.

(** The configuration of the specification whose widths sum to 15 is
    rejected. *)
Example New_rejects_5_5_5 : New (cfg 0 5 5 5) = inr errBitsSum.
Proof. reflexivity. Qed.

(** * The range of the machine ID *)

(** Claim C4 fails on the code in its last part: [New] accepts 1023 and
    rejects 1024 with the default ten machine bits, but its message
    gives 1023 as an exclusive bound, a range that leaves out the
    accepted value 1023. *)
Theorem New_machineID_message :
  New (cfg 1023 0 0 0) = inl (defaultLayout 1023) /\
  New (cfg 1024 0 0 0) = inr (errMachineID 1023) /\
  errMachineID 1023 = "invalid machine id; must be 0 ≤ id < 1023"%string.
Proof. repeat split. Qed.

(** * The three branches of [Next] *)

(** Claim C5 as stated fails in its second branch: [New] accepts the
    widths of [wholeClock]; a clock that reads one nanosecond before the
    epoch gives the time [2^64 - 1], the second call brings the sequence
    number to its mask, and the third call, with the clock still not
    ahead, takes the stored time to 0: it does not increase by 1. *)
Lemma Next_time_wraps_at_uint64_max :
  Config.wf wholeClock /\
  exists g0,
    New wholeClock = inl g0 /\
    let g := final g0 [-1; -1] in
    reachable g0 g /\
    time g = 2 ^ 64 - 1 /\
    generateTime g (-1) <= time g /\
    seq g = sequenceMask g /\
    time (fst (Next g (-1))) = 0 /\
    seq (fst (Next g (-1))) = 0 /\
    time (fst (Next g (-1))) <> time g + 1.
Proof.
  split.
  - unfold wholeClock, Config.wf, U64.inrange, U64.modulus. simpl. lia.
  - eexists. split; [reflexivity|]. cbv zeta.
    split; [apply final_reachable, reachable_init|].
    split; [reflexivity|].
    split; [vm_compute; discriminate|].
    split; [reflexivity|].
    split; [reflexivity|].
    split; [reflexivity|].
    vm_compute. discriminate.
Qed.

(** Claim C5, amended: from every state of a constructed generator,
    [Next] derives [newTime] and then: if [newTime > time], the time
    becomes [newTime] and the sequence number 0; else if the sequence
    number equals [sequenceMask], the time is incremented as a [uint64]
    (it increases by exactly 1 unless it is [2^64 - 1], from where the
    increment wraps around) and the sequence number becomes 0; else the
    sequence number increases by exactly 1 and the time is unchanged.
    The value returned is [(time << timeShift) | machineIDShifted | seq]
    of the updated state, and nothing else in the generator changes. *)
Theorem Next_three_way
  (c : Config.t) (g0 g : Generator) (unixNano : Z) :
  Config.wf c ->
  New c = inl g0 ->
  reachable g0 g ->
  let newTime := generateTime g unixNano in
  let g' := fst (Next g unixNano) in
  (newTime > time g -> time g' = newTime /\ seq g' = 0) /\
  (newTime <= time g -> seq g = sequenceMask g ->
   time g' = U64.add (time g) 1 /\ seq g' = 0 /\
   (time g <> 2 ^ 64 - 1 -> time g' = time g + 1)) /\
  (newTime <= time g -> seq g <> sequenceMask g ->
   seq g' = seq g + 1 /\ time g' = time g) /\
  snd (Next g unixNano) =
    Z.lor (Z.lor (U64.shl (time g') (timeShift g')) (machineIDShifted g'))
          (seq g') /\
  same_layout g g'.
Proof.
  intros W HN R newTime g'.
  pose proof (New_built c g0 HN) as B.
  destruct (reachable_state c g0 g W B R) as (Ht & Hs).
  destruct (same_layout_fields g0 g (reachable_same_layout g0 g R))
    as (_ & _ & _ & _ & _ & _ & _ & Esm & _).
  assert (Hsm : U64.inrange (sequenceMask g0)).
  { rewrite (built_sequenceMask c g0 B). apply wrap_inrange. }
  unfold U64.inrange, U64.modulus in Ht, Hsm.
  split; [|split; [|split; [|split]]].
  - intros Hgt. subst g' newTime.
    destruct (Next_cases g unixNano)
      as [(_ & ->) | [(Hle & _) | (Hle & _)]]; simpl; lia.
  - intros Hle Heq. subst g' newTime.
    destruct (Next_cases g unixNano)
      as [(Hgt & _) | [(_ & _ & ->) | (_ & Hne & _)]];
      simpl; try lia; try contradiction.
    repeat split. intros Hmax. apply wrap_small.
    u64_range.
  - intros Hle Hne. subst g' newTime.
    destruct (Next_cases g unixNano)
      as [(Hgt & _) | [(_ & Heq & _) | (_ & _ & ->)]];
      simpl; try lia; try contradiction.
    split; [|reflexivity]. apply wrap_small.
    u64_range.
  - reflexivity.
  - apply Next_same_layout.
Qed.

(** The three branches in turn, with the default layout and a clock that
    stands still at tick 1: the first call adopts the tick, the second
    counts, and with the sequence at its mask the third moves to tick 2. *)
Example Next_branches :
  let g1 := fst (Next (defaultLayout 1) (2 ^ 23)) in
  let g2 := fst (Next g1 (2 ^ 23)) in
  let g3 := fst (Next (set_time_seq g1 1 4095) (2 ^ 23)) in
  (time g1, seq g1) = (1, 0) /\
  (time g2, seq g2) = (1, 1) /\
  (time g3, seq g3) = (2, 0).
Proof. repeat split. Qed.

Lemma Next_three_way_witness :
  let g := defaultLayout 1 in
  let unixNano := sampleNano in
  let newTime := generateTime g unixNano in
  let g' := fst (Next g unixNano) in
  (newTime > time g -> time g' = newTime /\ seq g' = 0) /\
  (newTime <= time g -> seq g = sequenceMask g ->
   time g' = U64.add (time g) 1 /\ seq g' = 0 /\
   (time g <> 2 ^ 64 - 1 -> time g' = time g + 1)) /\
  (newTime <= time g -> seq g <> sequenceMask g ->
   seq g' = seq g + 1 /\ time g' = time g) /\
  snd (Next g unixNano) =
    Z.lor (Z.lor (U64.shl (time g') (timeShift g')) (machineIDShifted g'))
          (seq g') /\
  same_layout g g'.
Proof.
  apply (Next_three_way (cfg 1 0 0 0) (defaultLayout 1)).
  - apply cfg_wf; u64_range.
  - reflexivity.
  - apply reachable_init.
Defined.

(** * The time of a call *)

(** Claim C6: in every state of a constructed generator the time derived
    from the clock reading [now] is
    [((now - epochStart) >> (64 - timeBits)) & timeMask] in [uint64]
    arithmetic, with [epochStart] the configured seconds times [10^9]
    modulo [2^64]; it is at most [timeMask].  The shift count
    [64 - timeBits] is the integer difference for every time width up to
    64. *)
Theorem generateTime_formula
  (c : Config.t) (g0 g : Generator) (unixNano : Z) :
  Config.wf c ->
  New c = inl g0 ->
  reachable g0 g ->
  let now := U64.wrap unixNano in
  let epochStart := U64.mul (Config.EpochStartUnixSeconds c) (10 ^ 9) in
  let clockTruncationShift := U64.sub 64 (timeBits g0) in
  generateTime g unixNano =
    Z.land (U64.shr (U64.sub now epochStart) clockTruncationShift)
           (timeMask g0) /\
  0 <= generateTime g unixNano <= timeMask g0 /\
  (timeBits g0 <= 64 -> clockTruncationShift = 64 - timeBits g0).
Proof.
  intros W HN R now epochStart shift.
  pose proof (New_built c g0 HN) as B.
  destruct (built_widths c g0 W B) as (_ & _ & Htb).
  destruct (same_layout_fields g0 g (reachable_same_layout g0 g R))
    as (_ & Hep & _ & _ & _ & _ & _ & _ & Htm & Hns).
  assert (Hmask : 0 <= timeMask g0).
  { rewrite (built_timeMask c g0 B). apply wrap_inrange. }
  split; [|split].
  - unfold generateTime. rewrite Hep, Htm, Hns.
    rewrite (built_epochStartNano c g0 B), (built_nanoSecondsShift c g0 B).
    reflexivity.
  - rewrite <- Htm. apply generateTime_bounds. rewrite Htm. assumption.
  - intros Hle. apply wrap_small. u64_range.
Qed.

(** A tick of the default layout is [2^23] nanoseconds. *)
Example generateTime_default :
  generateTime (defaultLayout 1) sampleNano = 202655792236.
Proof. reflexivity. Qed.

Lemma generateTime_formula_witness :
  let g := defaultLayout 1 in
  let unixNano := sampleNano in
  let now := U64.wrap unixNano in
  let epochStart := U64.mul 0 (10 ^ 9) in
  let clockTruncationShift := U64.sub 64 (timeBits g) in
  generateTime g unixNano =
    Z.land (U64.shr (U64.sub now epochStart) clockTruncationShift)
           (timeMask g) /\
  0 <= generateTime g unixNano <= timeMask g /\
  (timeBits g <= 64 -> clockTruncationShift = 64 - timeBits g).
Proof.
  apply (generateTime_formula (cfg 1 0 0 0) (defaultLayout 1)).
  - apply cfg_wf; u64_range.
  - reflexivity.
  - apply reachable_init.
Defined.

(** * The derived constants *)

(** Claim C8: for every configuration that [New] accepts, with
    [machineBits], [sequenceBits] and [timeBits] the widths of the
    configuration after the defaults, the generator holds these widths
    and, as [uint64] values, [machineShift = sequenceBits],
    [timeShift = sequenceBits + machineBits],
    [sequenceMask = (1 << sequenceBits) - 1] and
    [timeMask = (1 << timeBits) - 1]; the signed expression
    [uint64(^(int64(-1) << bits))] of the code equals [(1 << bits) - 1]
    at each of the three widths.  When the widths sum to 63 as integers
    these are the integers [sequenceBits + machineBits] and
    [2^bits - 1]. *)
Theorem derived_constants (c : Config.t) (g : Generator) :
  Config.wf c ->
  New c = inl g ->
  let '(mb, sb, tb) := widthsOf c in
  machineBits g = mb /\ sequenceBits g = sb /\ timeBits g = tb /\
  machineShift g = sb /\
  timeShift g = U64.add sb mb /\
  sequenceMask g = U64.sub (U64.shl 1 sb) 1 /\
  timeMask g = U64.sub (U64.shl 1 tb) 1 /\
  (forall bits,
      In bits [mb; sb; tb] ->
      maskOf bits = U64.sub (U64.shl 1 bits) 1) /\
  (mb + sb + tb = MaxBits ->
   timeShift g = sb + mb /\
   sequenceMask g = 2 ^ sb - 1 /\
   timeMask g = 2 ^ tb - 1).
Proof.
  intros W HN. pose proof (New_built c g HN) as B.
  destruct (built_widths c g W B) as (Hmb & Hsb & Htb).
  pose proof (built_machineBits c g B) as Emb.
  pose proof (built_sequenceBits c g B) as Esb.
  pose proof (built_timeBits c g B) as Etb.
  unfold widthsOf. rewrite <- Emb, <- Esb, <- Etb.
  split; [reflexivity|]. split; [reflexivity|]. split; [reflexivity|].
  split; [|split; [|split; [|split; [|split]]]].
  - apply (built_machineShift c g B).
  - apply (built_timeShift c g B).
  - rewrite (built_sequenceMask c g B). apply maskOf_unsigned. lia.
  - rewrite (built_timeMask c g B). apply maskOf_unsigned. lia.
  - intros bits [<- | [<- | [<- | []]]]; apply maskOf_unsigned; lia.
  - intros E.
    destruct (built_exact c g W B E) as (_ & _ & _ & _ & Ets & Esm & Etm & _).
    repeat split; assumption.
Qed.

Lemma derived_constants_witness :
  let g := defaultLayout 1 in
  let '(mb, sb, tb) := widthsOf (cfg 1 0 0 0) in
  machineBits g = mb /\ sequenceBits g = sb /\ timeBits g = tb /\
  machineShift g = sb /\
  timeShift g = U64.add sb mb /\
  sequenceMask g = U64.sub (U64.shl 1 sb) 1 /\
  timeMask g = U64.sub (U64.shl 1 tb) 1 /\
  (forall bits,
      In bits [mb; sb; tb] ->
      maskOf bits = U64.sub (U64.shl 1 bits) 1) /\
  (mb + sb + tb = MaxBits ->
   timeShift g = sb + mb /\
   sequenceMask g = 2 ^ sb - 1 /\
   timeMask g = 2 ^ tb - 1).
Proof.
  apply (derived_constants (cfg 1 0 0 0) (defaultLayout 1)).
  - apply cfg_wf; u64_range.
  - reflexivity.
Defined.

(** Widths given in the configuration reach the constants: fourteen
    sequence bits put the machine field at bit 14. *)
Example derived_constants_8_14_41 :
  exists g, New (cfg 0 8 14 41) = inl g /\
            machineShift g = 14 /\ timeShift g = 22 /\
            sequenceMask g = 2 ^ 14 - 1 /\ timeMask g = 2 ^ 41 - 1.
Proof. eexists. repeat split. Qed.

(** The masks of the code at the widths 0, 1, 63 and 64. *)
Example maskOf_samples :
  maskOf 0 = 0 /\ maskOf 1 = 1 /\ maskOf 63 = 2 ^ 63 - 1 /\
  maskOf 64 = 2 ^ 64 - 1.
Proof. repeat split. Qed.

(** * The sequence number *)

(** Claim C10: a constructed generator starts with the sequence number 0,
    and in every state it reaches, before and after every call of
    [Next], the sequence number is at most [sequenceMask]; the increment
    of the third branch does not wrap around; no bit of the sequence
    number lies at or above [machineShift], where the machine field
    begins; and when the widths sum to 63 as integers the sequence field
    of the returned identifier is the sequence number itself. *)
Theorem seq_within_mask
  (c : Config.t) (g0 g : Generator) (unixNano : Z) :
  Config.wf c ->
  New c = inl g0 ->
  reachable g0 g ->
  let g' := fst (Next g unixNano) in
  seq g0 = 0 /\
  0 <= seq g <= sequenceMask g /\
  0 <= seq g' <= sequenceMask g' /\
  (seq g <> sequenceMask g -> U64.add (seq g) 1 = seq g + 1) /\
  (forall i, machineShift g' <= i -> Z.testbit (seq g') i = false) /\
  (exact_widths g0 ->
   Z.land (snd (Next g unixNano)) (sequenceMask g') = seq g').
Proof.
  intros W HN R g'.
  pose proof (New_built c g0 HN) as B.
  assert (R' : reachable g0 g') by (apply reachable_Next; assumption).
  destruct (built_widths c g0 W B) as (_ & Hsb & _).
  destruct (reachable_state c g0 g W B R) as (_ & Hs).
  destruct (reachable_state c g0 g' W B R') as (_ & Hs').
  destruct (same_layout_fields g0 g (reachable_same_layout g0 g R))
    as (_ & _ & _ & _ & _ & _ & _ & Esm & _).
  destruct (same_layout_fields g0 g' (reachable_same_layout g0 g' R'))
    as (_ & _ & _ & _ & _ & Ems' & _ & Esm' & _).
  rewrite Esm, Esm', Ems'.
  pose proof (built_sequenceMask c g0 B) as Hmask.
  pose proof (maskOf_lt_pow2 (sequenceBits g0)) as Hlt.
  pose proof (maskOf_inrange (sequenceBits g0)) as Hin.
  unfold U64.inrange, U64.modulus in Hin.
  split; [|split; [|split; [|split; [|split]]]].
  - apply (built_seq c g0 B).
  - assumption.
  - assumption.
  - intros Hne. apply wrap_small. u64_range.
  - intros i Hi. rewrite (built_machineShift c g0 B) in Hi.
    apply (testbit_above _ (sequenceBits g0)); lia.
  - intros E. rewrite Next_compose.
    apply (compose_sequence_field c g0 W B E). assumption.
Qed.

Lemma seq_within_mask_witness :
  let g := defaultLayout 1 in
  let g' := fst (Next g sampleNano) in
  seq g = 0 /\
  0 <= seq g <= sequenceMask g /\
  0 <= seq g' <= sequenceMask g' /\
  (seq g <> sequenceMask g -> U64.add (seq g) 1 = seq g + 1) /\
  (forall i, machineShift g' <= i -> Z.testbit (seq g') i = false) /\
  (exact_widths g ->
   Z.land (snd (Next g sampleNano)) (sequenceMask g') = seq g').
Proof.
  apply (seq_within_mask (cfg 1 0 0 0) (defaultLayout 1)).
  - apply cfg_wf; u64_range.
  - reflexivity.
  - apply reachable_init.
Defined.

(** * The machine field *)

(** Property X13: with widths that sum to 63 as integers, the documented
    shift and mask recover the configured machine ID from every identifier that
    [Next] returns, in every reachable state. *)
Lemma machine_field_recovered
  (c : Config.t) (g0 g : Generator) (unixNano : Z) :
  Config.wf c ->
  New c = inl g0 ->
  exact_widths g0 ->
  reachable g0 g ->
  machine_field g0 (snd (Next g unixNano)) = Config.MachineID c.
Proof.
  intros W HN E R. pose proof (New_built c g0 HN) as B.
  rewrite Next_compose.
  apply (compose_machine_field c g0 W B E).
  apply reachable_Next. assumption.
Qed.

(** The default layout of the specification: with machine ID 1, the
    first identifier shifted right by 12 and masked to 10 bits is 1. *)
Example machine_field_default :
  Z.land (Z.shiftr (snd (Next (defaultLayout 1) sampleNano)) 12)
         1023 = 1.
Proof. reflexivity. Qed.

(** Claim C7 fails on the code: [New] accepts 60 machine bits next to
    the 12 default sequence bits (the sum is 63 only modulo [2^64]) with
    the machine ID [2^60 - 1]; the shift by 12 drops the top eight bits
    of the machine ID, and the machine field of the first identifier is
    [2^52 - 1]. *)
Theorem machine_field_lost_on_wrapped_sum :
  Config.wf (cfg (2 ^ 60 - 1) 60 0 0) /\
  New (cfg (2 ^ 60 - 1) 60 0 0) = inl wideMachine /\
  machineBits wideMachine + sequenceBits wideMachine + timeBits wideMachine
    = 2 ^ 64 + 63 /\
  snd (Next wideMachine 0) = 2 ^ 64 - 4095 /\
  machine_field wideMachine (snd (Next wideMachine 0)) = 2 ^ 52 - 1 /\
  machine_field wideMachine (snd (Next wideMachine 0))
    <> Config.MachineID (cfg (2 ^ 60 - 1) 60 0 0).
Proof.
  split; [|split; [|split; [|split; [|split]]]].
  - apply cfg_wf; u64_range.
  - reflexivity.
  - reflexivity.
  - reflexivity.
  - reflexivity.
  - discriminate.
Qed.

(** * The accessor *)

(** Property X14: with widths that sum to 63 as integers, [MachineID]
    returns the configured machine ID in every reachable state. *)
Lemma MachineID_configured (c : Config.t) (g0 g : Generator) :
  Config.wf c ->
  New c = inl g0 ->
  exact_widths g0 ->
  reachable g0 g ->
  MachineID g = Config.MachineID c.
Proof.
  intros W HN E R. pose proof (New_built c g0 HN) as B.
  apply (MachineID_exact c g0 W B E). assumption.
Qed.

(** Property X17: [MachineID] depends on the layout only, which no call
    of [Next] changes: it returns the same value in every state that
    calls of [Next] lead to, for any generator. *)
Lemma MachineID_stable (g0 g : Generator) :
  reachable g0 g -> MachineID g = MachineID g0.
Proof.
  intros R.
  destruct (same_layout_fields g0 g (reachable_same_layout g0 g R))
    as (Hmids & _ & _ & _ & _ & Hms & _).
  unfold MachineID. rewrite Hmids, Hms. reflexivity.
Qed.

(** Claim C9 fails on the code: for the accepted configuration with 60
    machine bits, 12 default sequence bits and the machine ID
    [2^60 - 1], [MachineID] returns [2^52 - 1]. *)
Theorem MachineID_lost_on_wrapped_sum :
  Config.wf (cfg (2 ^ 60 - 1) 60 0 0) /\
  New (cfg (2 ^ 60 - 1) 60 0 0) = inl wideMachine /\
  MachineID wideMachine = 2 ^ 52 - 1 /\
  MachineID wideMachine <> Config.MachineID (cfg (2 ^ 60 - 1) 60 0 0).
Proof.
  split; [|split; [|split]].
  - apply cfg_wf; u64_range.
  - reflexivity.
  - reflexivity.
  - discriminate.
Qed.

(** * Further properties of the package *)

(** ** Lists and bits *)

Lemma StronglySorted_lt_NoDup (l : list Z) :
  StronglySorted Z.lt l -> NoDup l.
Proof.
  induction 1 as [|x l Hs IH Hall].
  - constructor.
  - constructor; [|assumption].
    intros Hin. rewrite Forall_forall in Hall.
    specialize (Hall x Hin). lia.
Qed.

Lemma StronglySorted_lt_adjacent (l : list Z) :
  StronglySorted Z.lt l ->
  forall i : nat, (S i < List.length l)%nat -> nth i l 0 < nth (S i) l 0.
Proof.
  induction 1 as [|x l Hs IH Hall]; intros i Hi.
  - simpl in Hi. lia.
  - destruct i as [|i].
    + destruct l as [|y l]; [simpl in Hi; lia|].
      inversion Hall; subst. assumption.
    + apply IH. simpl in Hi. lia.
Qed.

Lemma ids_length (g : Generator) (clock : list Z) :
  List.length (ids g clock) = List.length clock.
Proof.
  unfold ids. rewrite length_map. revert g.
  induction clock as [|unixNano rest IH]; intros g; [reflexivity|].
  cbn [run List.length]. f_equal. apply IH.
Qed.

(** ** The time of a call depends on the layout only *)

Lemma generateTime_same_layout (g0 g : Generator) (unixNano : Z) :
  same_layout g0 g -> generateTime g unixNano = generateTime g0 unixNano.
Proof.
  intros H.
  destruct (same_layout_fields g0 g H)
    as (_ & Hep & _ & _ & _ & _ & _ & _ & Htm & Hns).
  unfold generateTime. rewrite Hep, Htm, Hns. reflexivity.
Qed.

Lemma set_time_seq_id (g : Generator) : set_time_seq g (time g) (seq g) = g.
Proof. destruct g. reflexivity. Qed.

Lemma set_time_seq_twice (g : Generator) (t s t' s' : Z) :
  set_time_seq (set_time_seq g t s) t' s' = set_time_seq g t' s'.
Proof. reflexivity. Qed.

(** ** More on generators whose widths sum to 63 exactly *)

Section ExactLayoutRuns.

Variable c : Config.t.
Variable g0 : Generator.
Hypothesis W : Config.wf c.
Hypothesis B : built c g0.
Hypothesis E : exact_widths g0.

Local Abbreviation mid := (Config.MachineID c).
Local Abbreviation sb := (sequenceBits g0).
Local Abbreviation mb := (machineBits g0).
Local Abbreviation tb := (timeBits g0).

(** The time of a call is the elapsed time in ticks of
    [2^(64 - timeBits)] nanoseconds; the mask cuts nothing off. *)
Lemma generateTime_ticks (g : Generator) (unixNano : Z) :
  reachable g0 g ->
  generateTime g unixNano =
    U64.sub (U64.wrap unixNano) (epochStartNano g0) / 2 ^ (64 - tb) /\
  0 <= generateTime g unixNano < 2 ^ tb.
Proof.
  intros R.
  rewrite (generateTime_same_layout g0 g unixNano
             (reachable_same_layout g0 g R)).
  destruct (built_exact c g0 W B E)
    as (_ & _ & _ & _ & _ & _ & Etm & Ens & _).
  destruct (exact_powers c g0 W B E)
    as (_ & _ & Ptb & _ & _ & _ & _ & _ & _ & Rsb & Rmb & Rtb).
  unfold exact_widths, MaxBits in E.
  unfold generateTime. rewrite Etm, Ens.
  set (x := U64.sub (U64.wrap unixNano) (epochStartNano g0)).
  assert (Hx : 0 <= x < 2 ^ 64) by (subst x; apply wrap_inrange).
  assert (Hs : 0 < 2 ^ (64 - tb)) by (apply pow2_pos; lia).
  assert (Hsplit : 2 ^ 64 = 2 ^ tb * 2 ^ (64 - tb)).
  { rewrite <- Z.pow_add_r by lia. f_equal. lia. }
  assert (Hq : 0 <= x / 2 ^ (64 - tb) < 2 ^ tb).
  { split; [apply Z.div_pos; lia|].
    apply Z.div_lt_upper_bound; lia. }
  assert (Hshr : U64.shr x (64 - tb) = x / 2 ^ (64 - tb)).
  { unfold U64.shr. destruct (Z.leb_spec 64 (64 - tb)) as [Hge|Hlt].
    - replace (64 - tb) with 64 in * by lia.
      rewrite Z.div_small by lia. reflexivity.
    - apply Z.shiftr_div_pow2. lia. }
  rewrite Hshr.
  replace (2 ^ tb - 1) with (Z.ones tb) by (rewrite Z.ones_equiv; lia).
  rewrite Z.land_ones by lia.
  rewrite Z.mod_small by assumption. split; [reflexivity | assumption].
Qed.

(** The time field of an identifier is the stored time, cut to the
    [timeBits + 1] bits above the machine field. *)
Lemma compose_time_field (g : Generator) :
  reachable g0 g -> time_field g0 (compose g) = time g mod 2 ^ (tb + 1).
Proof.
  intros R. rewrite (compose_fields c g0 W B E g R).
  destruct (reachable_state c g0 g W B R) as (_ & Hseq).
  destruct (built_exact c g0 W B E) as (_ & _ & _ & _ & Ets & Esm & _).
  destruct (exact_powers c g0 W B E)
    as (Psb & Pmb & Ptb & Pts & _ & _ & Rts & _ & Rmid & Rsb & Rmb & Rtb).
  unfold time_field. rewrite Ets, Esm in *.
  rewrite shr_div by lia.
  rewrite <- Z.add_assoc, Z.div_add_l by lia.
  rewrite Z.div_small by (rewrite Pts; nia). lia.
Qed.

(** A call moves the position forward by one, or to the tick of the
    clock. *)
Lemma position_step (g : Generator) (unixNano : Z) :
  reachable g0 g ->
  time g < 2 ^ (tb + 1) ->
  position (fst (Next g unixNano)) <=
  Z.max ((2 ^ tb - 1) * 2 ^ sb) (position g + 1).
Proof.
  intros R Ht.
  assert (R' := reachable_Next g0 g unixNano R).
  destruct (same_layout_fields g0 g (reachable_same_layout g0 g R))
    as (_ & _ & _ & Hsb & _ & _ & _ & Hsm & _).
  destruct (same_layout_fields g0 _ (reachable_same_layout g0 _ R'))
    as (_ & _ & _ & Hsb' & _).
  destruct (built_exact c g0 W B E) as (_ & _ & _ & _ & _ & Esm & _).
  destruct (reachable_state c g0 g W B R) as ((Ht0 & _) & Hseq).
  destruct (generateTime_ticks g unixNano R) as (_ & Hnt).
  destruct (exact_powers c g0 W B E)
    as (Psb & Pmb & Ptb & Pts & Ptop & P63 & _).
  unfold position. rewrite Hsb, Hsb'. clear Hsb'.
  assert (Hwrap : U64.add (time g) 1 = time g + 1).
  { apply wrap_small. unfold U64.inrange, U64.modulus. nia. }
  destruct (Next_cases g unixNano)
    as [(Hgt & ->) | [(_ & Heq & ->) | (_ & Hne & ->)]]; simpl.
  - nia.
  - rewrite Hwrap. rewrite Hsm, Esm in Heq. nia.
  - rewrite Hsm in Hne. unfold U64.add.
    rewrite wrap_small by (unfold U64.inrange, U64.modulus; nia). lia.
Qed.

Lemma position_time (g : Generator) :
  reachable g0 g ->
  position g < 2 ^ (tb + 1) * 2 ^ sb ->
  time g < 2 ^ (tb + 1).
Proof.
  intros R Hp.
  destruct (same_layout_fields g0 g (reachable_same_layout g0 g R))
    as (_ & _ & _ & Hsb & _).
  destruct (reachable_state c g0 g W B R) as (_ & Hseq).
  destruct (exact_powers c g0 W B E) as (Psb & _).
  unfold position in Hp. rewrite Hsb in Hp. nia.
Qed.

(** For [2^(timeBits + sequenceBits)] calls the stored time stays in the
    part that the shift keeps, whatever the clock reads. *)
Lemma states_time_bound (clock : list Z) :
  forall (g : Generator) (n : Z),
    reachable g0 g ->
    0 <= n ->
    position g <= (2 ^ tb - 1) * 2 ^ sb + n ->
    n + Z.of_nat (List.length clock) <= 2 ^ tb * 2 ^ sb ->
    Forall (fun g' => time g' < 2 ^ (tb + 1)) (states g clock).
Proof.
  destruct (exact_powers c g0 W B E)
    as (Psb & Pmb & Ptb & Pts & Ptop & P63 & _).
  induction clock as [|unixNano rest IH]; intros g n R Hn Hp Hlen.
  - constructor.
  - rewrite states_cons.
    cbn [List.length] in Hlen. rewrite Nat2Z.inj_succ in Hlen.
    assert (Ht : time g < 2 ^ (tb + 1)).
    { apply position_time; [assumption|]. rewrite Ptop. nia. }
    assert (R' := reachable_Next g0 g unixNano R).
    pose proof (position_step g unixNano R Ht) as Hstep.
    assert (Hp' : position (fst (Next g unixNano)) <=
                  (2 ^ tb - 1) * 2 ^ sb + (n + 1)) by lia.
    constructor.
    + apply position_time; [assumption|]. rewrite Ptop. nia.
    + apply (IH _ (n + 1)); try assumption; lia.
Qed.

End ExactLayoutRuns.

(** ** Construction: errors and defaults *)

(** Property X1: [New] returns the error on the sum of the widths
    exactly when the three widths, after the defaults, do not sum to 63
    modulo [2^64]; this check comes first, whatever the machine ID is. *)
Theorem New_sum_error_iff (c : Config.t) :
  let '(mb, sb, tb) := widthsOf c in
  New c = inr errBitsSum <-> (mb + sb + tb) mod 2 ^ 64 <> 63.
Proof.
  pose proof (New_sum_check c) as H. unfold widthsOf in *.
  set (mb := if Config.MachineBits c =? 0 then _ else _) in *.
  set (sb := if Config.SequenceBits c =? 0 then _ else _) in *.
  set (tb := if Config.TimeBits c =? 0 then _ else _) in *.
  assert (Hsum : U64.add (U64.add sb mb) tb = (mb + sb + tb) mod 2 ^ 64).
  { unfold U64.add, U64.wrap, U64.modulus.
    rewrite Z.add_mod_idemp_l by lia. f_equal. ring. }
  rewrite Hsum in H. exact H.
Qed.

(** Widths that sum to 15 are reported even with a machine ID that fits
    no width. *)
Example New_sum_error_first :
  New (cfg (2 ^ 64 - 1) 5 5 5) = inr errBitsSum.
Proof. reflexivity. Qed.

(** Property X2: for a configuration whose widths pass the check of the
    sum, [New] returns a generator exactly when the machine ID is at
    most [2^machineBits - 1]; otherwise it returns the error on the
    machine ID, whose message ends with that maximum in decimal. *)
Theorem New_machineID_range (c : Config.t) :
  Config.wf c ->
  New c <> inr errBitsSum ->
  let '(mb, _, _) := widthsOf c in
  (Config.MachineID c <= 2 ^ mb - 1 -> exists g, New c = inl g) /\
  (Config.MachineID c > 2 ^ mb - 1 ->
   New c = inr ("invalid machine id; must be 0 ≤ id < "
                ++ fmt_d (2 ^ mb - 1))%string).
Proof.
  intros W Hsum. pose proof (New_machineID_check c W Hsum) as H.
  unfold widthsOf, errMachineID in *. exact H.
Qed.

Lemma New_machineID_range_witness :
  (1024 <= 2 ^ 10 - 1 -> exists g, New (cfg 1024 0 0 0) = inl g) /\
  (1024 > 2 ^ 10 - 1 ->
   New (cfg 1024 0 0 0) =
   inr ("invalid machine id; must be 0 ≤ id < " ++ fmt_d (2 ^ 10 - 1))%string).
Proof.
  apply (New_machineID_range (cfg 1024 0 0 0)).
  - apply cfg_wf; u64_range.
  - discriminate.
Defined.

(** Property X3: a configuration that leaves [TimeBits] at zero never
    gets the error on the sum of the widths: the default time width
    makes the sum 63 modulo [2^64] for every machine and sequence
    width. *)
Theorem New_default_timeBits_no_sum_error (c : Config.t) :
  Config.TimeBits c = 0 -> New c <> inr errBitsSum.
Proof. intros H. exact (New_default_timeBits_sum c H). Qed.

Lemma New_default_timeBits_no_sum_error_witness :
  New (cfg 0 40 40 0) <> inr errBitsSum.
Proof.
  apply (New_default_timeBits_no_sum_error (cfg 0 40 40 0)).
  reflexivity.
Defined.

(** Property X4: with the three widths left at zero, every machine ID up
    to 1023 and every epoch give the documented default layout: 41 bits
    of time above 10 bits of machine ID above 12 bits of sequence, with
    a fresh state and a tick of [2^23] nanoseconds. *)
Theorem New_default_layout (machineID epochSeconds : Z) :
  0 <= machineID <= 1023 ->
  New (Config.mk machineID epochSeconds 0 0 0) =
  inl {| time := 0; seq := 0;
         machineIDShifted := machineID * 2 ^ 12;
         epochStartNano := U64.mul epochSeconds (10 ^ 9);
         machineBits := 10; sequenceBits := 12; timeBits := 41;
         machineShift := 12; timeShift := 22;
         sequenceMask := 2 ^ 12 - 1; timeMask := 2 ^ 41 - 1;
         nanoSecondsShift := 23 |}.
Proof.
  intros Hmid. unfold New. cbn [Config.MachineBits Config.SequenceBits
    Config.TimeBits Config.MachineID Config.EpochStartUnixSeconds Z.eqb].
  change (negb (U64.add (U64.add DefaultSequenceBits DefaultMachineBits)
            (U64.sub (U64.sub MaxBits DefaultMachineBits) DefaultSequenceBits)
          =? MaxBits)) with false.
  change (maskOf DefaultMachineBits) with 1023.
  destruct (Z.gtb_spec machineID 1023) as [Hgt|_]; [lia|].
  cbv iota. f_equal.
  rewrite (shl_exact machineID DefaultSequenceBits)
    by (unfold DefaultSequenceBits; lia).
  reflexivity.
Qed.

Lemma New_default_layout_witness :
  New (Config.mk 10 0 0 0 0) =
  inl {| time := 0; seq := 0;
         machineIDShifted := 10 * 2 ^ 12;
         epochStartNano := U64.mul 0 (10 ^ 9);
         machineBits := 10; sequenceBits := 12; timeBits := 41;
         machineShift := 12; timeShift := 22;
         sequenceMask := 2 ^ 12 - 1; timeMask := 2 ^ 41 - 1;
         nanoSecondsShift := 23 |}.
Proof. apply (New_default_layout 10 0). lia. Defined.

(** ** The clock *)

(** Property X5: for a generator whose widths sum to 63 exactly, the
    time of a call is the elapsed time since the epoch, modulo [2^64],
    divided by the tick of [2^(64 - timeBits)] nanoseconds; it is below
    [2^timeBits] without the mask; and for a clock at or after an epoch
    that fits 64 bits the elapsed time is the plain difference. *)
Theorem generateTime_elapsed_ticks
  (c : Config.t) (g0 g : Generator) (unixNano : Z) :
  Config.wf c ->
  New c = inl g0 ->
  exact_widths g0 ->
  reachable g0 g ->
  let epochNano := Config.EpochStartUnixSeconds c * 10 ^ 9 in
  let elapsed := U64.sub (U64.wrap unixNano) (U64.mul (Config.EpochStartUnixSeconds c) (10 ^ 9)) in
  generateTime g unixNano = elapsed / 2 ^ (64 - timeBits g0) /\
  0 <= generateTime g unixNano < 2 ^ timeBits g0 /\
  (epochNano <= unixNano < 2 ^ 64 -> elapsed = unixNano - epochNano).
Proof.
  intros W HN E R epochNano elapsed.
  pose proof (New_built c g0 HN) as B.
  destruct (generateTime_ticks c g0 W B E g unixNano R) as (Heq & Hlt).
  rewrite (built_epochStartNano c g0 B) in Heq.
  split; [assumption|]. split; [assumption|].
  intros Hclock. subst elapsed epochNano.
  destruct W as (_ & (He & _) & _).
  unfold U64.sub, U64.mul.
  rewrite (wrap_small unixNano) by u64_range.
  rewrite (wrap_small (_ * _)) by u64_range.
  apply wrap_small. u64_range.
Qed.

Lemma generateTime_elapsed_ticks_witness :
  let c := cfg 1 0 0 0 in
  let g := defaultLayout 1 in
  let epochNano := Config.EpochStartUnixSeconds c * 10 ^ 9 in
  let elapsed := U64.sub (U64.wrap sampleNano) (U64.mul (Config.EpochStartUnixSeconds c) (10 ^ 9)) in
  generateTime g sampleNano = elapsed / 2 ^ (64 - timeBits g) /\
  0 <= generateTime g sampleNano < 2 ^ timeBits g /\
  (epochNano <= sampleNano < 2 ^ 64 -> elapsed = sampleNano - epochNano).
Proof.
  apply (generateTime_elapsed_ticks (cfg 1 0 0 0) (defaultLayout 1)).
  - apply cfg_wf; u64_range.
  - reflexivity.
  - reflexivity.
  - apply reachable_init.
Defined.

(** Property X6: for a generator whose widths sum to 63 exactly, the
    time of a call follows the clock: of two readings at or after the
    epoch, the later one never gives the smaller time. *)
Theorem generateTime_monotone
  (c : Config.t) (g0 g : Generator) (earlier later : Z) :
  Config.wf c ->
  New c = inl g0 ->
  exact_widths g0 ->
  reachable g0 g ->
  Config.EpochStartUnixSeconds c * 10 ^ 9 <= earlier ->
  earlier <= later < 2 ^ 64 ->
  generateTime g earlier <= generateTime g later.
Proof.
  intros W HN E R Hep Hle.
  pose proof (New_built c g0 HN) as B.
  destruct (generateTime_ticks c g0 W B E g earlier R) as (-> & _).
  destruct (generateTime_ticks c g0 W B E g later R) as (-> & _).
  rewrite (built_epochStartNano c g0 B).
  destruct (exact_powers c g0 W B E)
    as (_ & _ & _ & _ & _ & _ & _ & _ & _ & Rsb & Rmb & Rtb).
  unfold exact_widths, MaxBits in E.
  destruct W as (_ & (He & _) & _).
  unfold U64.sub, U64.mul.
  rewrite (wrap_small earlier), (wrap_small later) by u64_range.
  rewrite (wrap_small (_ * _)) by u64_range.
  rewrite !wrap_small by u64_range.
  apply Z.div_le_mono; [apply pow2_pos|]; lia.
Qed.

Lemma generateTime_monotone_witness :
  generateTime (defaultLayout 1) sampleNano
  <= generateTime (defaultLayout 1) (sampleNano + 10 ^ 9).
Proof.
  apply (generateTime_monotone (cfg 1 0 0 0) (defaultLayout 1)).
  - apply cfg_wf; u64_range.
  - reflexivity.
  - reflexivity.
  - apply reachable_init.
  - vm_compute. discriminate.
  - split; vm_compute; [discriminate | reflexivity].
Defined.

(** ** The stored time *)

(** Property X7: in every state of a constructed generator whose time
    is not [2^64 - 1], a call of [Next] leaves a stored time that is at
    least the time before the call and at least the time of the clock,
    and at most the larger of the time of the clock and one tick more
    than before: a clock that runs backwards never takes the stored time
    back. *)
Theorem Next_time_bounds
  (c : Config.t) (g0 g : Generator) (unixNano : Z) :
  Config.wf c ->
  New c = inl g0 ->
  reachable g0 g ->
  time g <> 2 ^ 64 - 1 ->
  let t' := time (fst (Next g unixNano)) in
  time g <= t' /\
  generateTime g unixNano <= t' /\
  t' <= Z.max (generateTime g unixNano) (time g + 1).
Proof.
  intros W HN R Hmax t'. subst t'.
  pose proof (New_built c g0 HN) as B.
  destruct (reachable_state c g0 g W B R) as (Ht & _).
  assert (Hwrap : U64.add (time g) 1 = time g + 1)
    by (apply wrap_small; u64_range).
  destruct (Next_cases g unixNano)
    as [(Hgt & ->) | [(Hle & _ & ->) | (Hle & _ & ->)]]; simpl;
    rewrite ?Hwrap; lia.
Qed.

(** The clock falls back by a hundred million seconds after the first
    call: the stored time stays. *)
Lemma Next_time_bounds_witness :
  let g := fst (Next (defaultLayout 1) sampleNano) in
  let t' := time (fst (Next g (sampleNano - 10 ^ 17))) in
  time g <= t' /\
  generateTime g (sampleNano - 10 ^ 17) <= t' /\
  t' <= Z.max (generateTime g (sampleNano - 10 ^ 17)) (time g + 1).
Proof.
  apply (Next_time_bounds (cfg 1 0 0 0) (defaultLayout 1)).
  - apply cfg_wf; u64_range.
  - reflexivity.
  - apply reachable_Next, reachable_init.
  - vm_compute. discriminate.
Defined.

(** ** Identifiers within one tick *)

Lemma final_within_tick (c : Config.t) (g0 : Generator) (clock : list Z) :
  Config.wf c -> built c g0 ->
  forall g : Generator,
    reachable g0 g ->
    Forall (fun unixNano => generateTime g unixNano <= time g) clock ->
    seq g + Z.of_nat (List.length clock) <= sequenceMask g ->
    final g clock =
    set_time_seq g (time g) (seq g + Z.of_nat (List.length clock)).
Proof.
  intros W B.
  assert (Hmask : U64.inrange (sequenceMask g0)).
  { rewrite (built_sequenceMask c g0 B). apply wrap_inrange. }
  induction clock as [|unixNano rest IH]; intros g R Hclock Hlen.
  - cbn. rewrite Z.add_0_r. symmetry. apply set_time_seq_id.
  - cbn [List.length] in Hlen. rewrite Nat2Z.inj_succ in Hlen.
    inversion Hclock as [|? ? Hnow Hrest]; subst.
    destruct (reachable_state c g0 g W B R) as (_ & Hseq).
    destruct (same_layout_fields g0 g (reachable_same_layout g0 g R))
      as (_ & _ & _ & _ & _ & _ & _ & Hsm & _).
    assert (R' := reachable_Next g0 g unixNano R).
    assert (Hstep : fst (Next g unixNano) =
                    set_time_seq g (time g) (seq g + 1)).
    { destruct (Next_cases g unixNano)
        as [(Hgt & _) | [(_ & Heq & _) | (_ & _ & ->)]]; try lia.
      unfold U64.add. rewrite wrap_small by u64_range. reflexivity. }
    change (final g (unixNano :: rest))
      with (final (fst (Next g unixNano)) rest).
    rewrite IH.
    + cbn [List.length].
      rewrite Hstep, set_time_seq_twice, Nat2Z.inj_succ.
      cbn [set_time_seq time seq]. f_equal. lia.
    + assumption.
    + eapply Forall_impl; [|exact Hrest]. cbv beta. intros n Hn.
      rewrite (generateTime_same_layout g _ n (Next_same_layout g unixNano)).
      rewrite Hstep. assumption.
    + rewrite Hstep. cbn [set_time_seq seq sequenceMask]. lia.
Qed.

(** Property X8: while the clock stays at or behind the stored time,
    the calls of [Next] keep the stored time and count the sequence
    number up by one each, as long as it fits [sequenceMask]; when it
    has reached [sequenceMask], the next such call increments the stored
    time as a [uint64] (one tick forward, and from [2^64 - 1] around to
    0) and starts the sequence at 0 again. *)
Theorem Next_counts_within_tick
  (c : Config.t) (g0 g : Generator) (clock : list Z) :
  Config.wf c ->
  New c = inl g0 ->
  reachable g0 g ->
  Forall (fun unixNano => generateTime g unixNano <= time g) clock ->
  seq g + Z.of_nat (List.length clock) <= sequenceMask g ->
  final g clock =
    set_time_seq g (time g) (seq g + Z.of_nat (List.length clock)) /\
  (seq g + Z.of_nat (List.length clock) = sequenceMask g ->
   forall unixNano,
     generateTime g unixNano <= time g ->
     fst (Next (final g clock) unixNano) =
       set_time_seq g (U64.add (time g) 1) 0 /\
     (time g <> 2 ^ 64 - 1 -> U64.add (time g) 1 = time g + 1) /\
     (time g = 2 ^ 64 - 1 -> U64.add (time g) 1 = 0)).
Proof.
  intros W HN R Hclock Hlen.
  pose proof (New_built c g0 HN) as B.
  pose proof (final_within_tick c g0 clock W B g R Hclock Hlen) as Hfin.
  split; [assumption|].
  intros Hfull unixNano Hnow. rewrite Hfin.
  destruct (reachable_state c g0 g W B R) as (Ht & _).
  set (g1 := set_time_seq g (time g)
               (seq g + Z.of_nat (List.length clock))).
  assert (Hgt : generateTime g1 unixNano = generateTime g unixNano)
    by (apply generateTime_same_layout, same_layout_set).
  split; [|split].
  - destruct (Next_cases g1 unixNano)
      as [(Hlt & _) | [(_ & _ & ->) | (_ & Hne & _)]].
    + rewrite Hgt in Hlt. subst g1. cbn [set_time_seq time] in Hlt. lia.
    + reflexivity.
    + subst g1. cbn [set_time_seq seq sequenceMask] in Hne. contradiction.
  - intros Hmax. apply wrap_small. u64_range.
  - intros ->. reflexivity.
Qed.

(** The default layout gives 4096 identifiers to a tick: after the call
    that adopts the tick, 4095 more calls stay in it. *)
Lemma Next_counts_within_tick_witness :
  let g := fst (Next (defaultLayout 1) sampleNano) in
  let clock := repeat sampleNano 4095 in
  final g clock =
    set_time_seq g (time g) (seq g + Z.of_nat (List.length clock)) /\
  (seq g + Z.of_nat (List.length clock) = sequenceMask g ->
   forall unixNano,
     generateTime g unixNano <= time g ->
     fst (Next (final g clock) unixNano) =
       set_time_seq g (U64.add (time g) 1) 0 /\
     (time g <> 2 ^ 64 - 1 -> U64.add (time g) 1 = time g + 1) /\
     (time g = 2 ^ 64 - 1 -> U64.add (time g) 1 = 0)).
Proof.
  apply (Next_counts_within_tick (cfg 1 0 0 0) (defaultLayout 1)).
  - apply cfg_wf; u64_range.
  - reflexivity.
  - apply reachable_Next, reachable_init.
  - apply Forall_forall. intros n Hn. apply repeat_spec in Hn. subst n.
    vm_compute. discriminate.
  - vm_compute. discriminate.
Defined.

(** At the end of the range: with the widths of [wholeClock] and the
    stored time at [2^64 - 1], the call after the last sequence number
    restarts the time at 0. *)
Example Next_counts_within_tick_wrap :
  exists g0,
    New wholeClock = inl g0 /\
    let g := fst (Next g0 (-1)) in
    final g [-1] = set_time_seq g (2 ^ 64 - 1) 1 /\
    fst (Next (final g [-1]) (-1)) = set_time_seq g 0 0.
Proof. eexists. repeat split. Qed.

(** ** Uniqueness and the number of calls *)

(** Property X9: for a generator whose widths sum to 63 exactly, no
    identifier is returned twice as long as the stored time stays below
    [2^(timeBits+1)]. *)
Theorem ids_distinct (c : Config.t) (g0 : Generator) (clock : list Z) :
  Config.wf c ->
  New c = inl g0 ->
  exact_widths g0 ->
  Forall (fun g => time g < 2 ^ (timeBits g0 + 1)) (states g0 clock) ->
  NoDup (ids g0 clock).
Proof.
  intros W HN E Hall.
  pose proof (New_built c g0 HN) as B.
  apply StronglySorted_lt_NoDup.
  apply (ids_sorted_from c g0 W B E clock g0).
  - apply reachable_init.
  - rewrite (built_time c g0 B).
    destruct (exact_powers c g0 W B E) as (_ & _ & Htb & _ & Htop & _). lia.
  - assumption.
Qed.

Lemma ids_distinct_witness :
  NoDup (ids (defaultLayout 1) [sampleNano; sampleNano; sampleNano - 10 ^ 17]).
Proof.
  apply (ids_distinct (cfg 1 0 0 0)).
  - apply cfg_wf; u64_range.
  - reflexivity.
  - reflexivity.
  - repeat constructor.
Defined.

(** Property X10: for a generator whose widths sum to 63 exactly, the
    first [2^(timeBits + sequenceBits)] calls of [Next] return strictly
    increasing identifiers whatever the clock reads at each call,
    backwards steps included. *)
Theorem first_ids_strictly_increasing
  (c : Config.t) (g0 : Generator) (clock : list Z) :
  Config.wf c ->
  New c = inl g0 ->
  exact_widths g0 ->
  Z.of_nat (List.length clock) <= 2 ^ (timeBits g0 + sequenceBits g0) ->
  StronglySorted Z.lt (ids g0 clock).
Proof.
  intros W HN E Hlen.
  pose proof (New_built c g0 HN) as B.
  destruct (exact_powers c g0 W B E)
    as (Psb & _ & Ptb & _ & Ptop & _ & _ & _ & _ & Rsb & _ & Rtb).
  rewrite Z.pow_add_r in Hlen by lia.
  assert (Ht0 : time g0 < 2 ^ (timeBits g0 + 1))
    by (rewrite (built_time c g0 B); lia).
  apply (ids_sorted_from c g0 W B E clock g0).
  - apply reachable_init.
  - assumption.
  - apply (states_time_bound c g0 W B E clock g0 0).
    + apply reachable_init.
    + lia.
    + unfold position. rewrite (built_time c g0 B), (built_seq c g0 B). nia.
    + lia.
Qed.

Lemma first_ids_strictly_increasing_witness :
  StronglySorted Z.lt (ids narrowTime (repeat sampleNano 4)).
Proof.
  apply (first_ids_strictly_increasing (cfg 0 61 1 1)).
  - apply cfg_wf; u64_range.
  - reflexivity.
  - reflexivity.
  - vm_compute. discriminate.
Defined.

(** Property X16: the assertion of [TestNextMonotonic] holds for every
    behaviour of the clock: the 10000 identifiers that the generator of
    [Config{MachineID: 10}] returns satisfy [out[i] < out[i+1]]. *)
Theorem TestNextMonotonic (clock : list Z) :
  Z.of_nat (List.length clock) = 10000 ->
  New (Config.mk 10 0 0 0 0) = inl (defaultLayout 10) /\
  let out := ids (defaultLayout 10) clock in
  Z.of_nat (List.length out) = 10000 /\
  forall i : nat, (S i < List.length out)%nat ->
                  nth i out 0 < nth (S i) out 0.
Proof.
  intros Hlen. split; [reflexivity|]. cbv zeta. split.
  - rewrite ids_length. assumption.
  - apply StronglySorted_lt_adjacent.
    assert (W : Config.wf (Config.mk 10 0 0 0 0)) by (apply cfg_wf; u64_range).
    pose proof (New_built (Config.mk 10 0 0 0 0) (defaultLayout 10) eq_refl)
      as B.
    apply (ids_sorted_from _ _ W B eq_refl clock).
    + apply reachable_init.
    + reflexivity.
    + apply (states_time_bound _ _ W B eq_refl clock _ 0).
      * apply reachable_init.
      * lia.
      * vm_compute. discriminate.
      * rewrite Hlen. vm_compute. discriminate.
Qed.

Lemma TestNextMonotonic_witness :
  New (Config.mk 10 0 0 0 0) = inl (defaultLayout 10) /\
  let out := ids (defaultLayout 10) (repeat sampleNano (Z.to_nat 10000)) in
  Z.of_nat (List.length out) = 10000 /\
  forall i : nat, (S i < List.length out)%nat ->
                  nth i out 0 < nth (S i) out 0.
Proof.
  apply (TestNextMonotonic (repeat sampleNano (Z.to_nat 10000))).
  rewrite repeat_length. apply Z2Nat.id. lia.
Defined.

(** ** The fields of an identifier *)

(** Property X11: two generators with the same widths, summing to 63
    exactly, and different machine IDs never return the same
    identifier, in whatever states they are and whatever their clocks
    read. *)
Theorem distinct_machines_distinct_ids
  (c1 c2 : Config.t) (g1 g2 s1 s2 : Generator) (unixNano1 unixNano2 : Z) :
  Config.wf c1 -> Config.wf c2 ->
  New c1 = inl g1 -> New c2 = inl g2 ->
  exact_widths g1 -> exact_widths g2 ->
  machineBits g1 = machineBits g2 ->
  sequenceBits g1 = sequenceBits g2 ->
  Config.MachineID c1 <> Config.MachineID c2 ->
  reachable g1 s1 -> reachable g2 s2 ->
  snd (Next s1 unixNano1) <> snd (Next s2 unixNano2).
Proof.
  intros W1 W2 HN1 HN2 E1 E2 Hmb Hsb Hmid R1 R2 Heq.
  pose proof (New_built c1 g1 HN1) as B1.
  pose proof (New_built c2 g2 HN2) as B2.
  pose proof (compose_machine_field c1 g1 W1 B1 E1 _
                (reachable_Next g1 s1 unixNano1 R1)) as F1.
  pose proof (compose_machine_field c2 g2 W2 B2 E2 _
                (reachable_Next g2 s2 unixNano2 R2)) as F2.
  rewrite <- !Next_compose in F1, F2.
  unfold machine_field in F1, F2.
  rewrite Heq, Hmb, Hsb in F1. congruence.
Qed.

Lemma distinct_machines_distinct_ids_witness :
  snd (Next (defaultLayout 1) sampleNano)
  <> snd (Next (defaultLayout 2) sampleNano).
Proof.
  apply (distinct_machines_distinct_ids (cfg 1 0 0 0) (cfg 2 0 0 0)
           (defaultLayout 1) (defaultLayout 2)).
  - apply cfg_wf; u64_range.
  - apply cfg_wf; u64_range.
  - reflexivity.
  - reflexivity.
  - reflexivity.
  - reflexivity.
  - reflexivity.
  - reflexivity.
  - discriminate.
  - apply reachable_init.
  - apply reachable_init.
Defined.

(** Property X12: for a generator whose widths sum to 63 exactly, the
    identifier shifted right by [timeShift] is the stored time of the
    call, cut to [timeBits + 1] bits; it is the stored time itself as
    long as that is at most [timeMask]. *)
Theorem time_field_recovered
  (c : Config.t) (g0 g : Generator) (unixNano : Z) :
  Config.wf c ->
  New c = inl g0 ->
  exact_widths g0 ->
  reachable g0 g ->
  let g' := fst (Next g unixNano) in
  let id := snd (Next g unixNano) in
  time_field g0 id = time g' mod 2 ^ (timeBits g0 + 1) /\
  (time g' <= timeMask g0 -> time_field g0 id = time g').
Proof.
  intros W HN E R g' id. subst g' id.
  pose proof (New_built c g0 HN) as B.
  assert (R' := reachable_Next g0 g unixNano R).
  rewrite Next_compose, (compose_time_field c g0 W B E _ R').
  split; [reflexivity|]. intros Ht.
  destruct (reachable_state c g0 _ W B R') as ((Ht0 & _) & _).
  destruct (built_exact c g0 W B E) as (_ & _ & _ & _ & _ & _ & Etm & _).
  destruct (exact_powers c g0 W B E) as (_ & _ & Ptb & _ & Ptop & _).
  apply Z.mod_small. lia.
Qed.

Lemma time_field_recovered_witness :
  let g := defaultLayout 1 in
  let g' := fst (Next g sampleNano) in
  let id := snd (Next g sampleNano) in
  time_field g id = time g' mod 2 ^ (timeBits g + 1) /\
  (time g' <= timeMask g -> time_field g id = time g').
Proof.
  apply (time_field_recovered (cfg 1 0 0 0) (defaultLayout 1)).
  - apply cfg_wf; u64_range.
  - reflexivity.
  - reflexivity.
  - apply reachable_init.
Defined.

Lemma machine_field_recovered_witness :
  machine_field (defaultLayout 1) (snd (Next (defaultLayout 1) sampleNano)) = 1.
Proof.
  apply (machine_field_recovered (cfg 1 0 0 0) (defaultLayout 1)).
  - apply cfg_wf; u64_range.
  - reflexivity.
  - reflexivity.
  - apply reachable_init.
Defined.

Lemma MachineID_configured_witness :
  MachineID (fst (Next (defaultLayout 1) sampleNano)) = 1.
Proof.
  apply (MachineID_configured (cfg 1 0 0 0) (defaultLayout 1)).
  - apply cfg_wf; u64_range.
  - reflexivity.
  - reflexivity.
  - apply reachable_Next, reachable_init.
Defined.

(** ** The accessor after calls of [Next] *)

Lemma MachineID_stable_witness :
  MachineID (final wideMachine (repeat sampleNano 3)) = MachineID wideMachine.
Proof.
  apply (MachineID_stable wideMachine).
  apply final_reachable, reachable_init.
Defined.
